(** * open-ai-tutorial: the chat bot and the basics demo

    A shallow embedding of the two TypeScript programs of the repository,
    [src/chat-bot/index.ts] (interactive chat loop with history) and
    [src/basics/index.ts] (single completion saved to a file), and the
    properties their specification states about them; then the helper
    script [script/copy-file.js], which dumps a source tree into one file,
    and further properties of all three.

    Everything outside the two programs is the environment: the operator
    typing lines, the remote completion service, the file system, the clock.
    The environment is a script the programs consume; a program that asks for
    more than the script holds stays suspended at that point.  What the host
    decides, the lower-casing of its locale and the way its platform joins
    paths, is a parameter of the programs. *)

From stdpp Require Import gmap strings list fin_maps pretty.

Set Warnings "-register-all".
Set Default Proof Using "Type".
Open Scope string_scope.
Open Scope list_scope.

(** ** JavaScript values *)

(** The values that travel through the programs: what [JSON.parse] can
    produce, plus [undefined].  A number is carried by its decimal rendering,
    the only thing the programs ever do with one is to print it. *)
Inductive jsval : Type :=
  | VUndefined
  | VNull
  | VBool (b : bool)
  | VNum (text : string)
  | VStr (s : string)
  | VArr (items : list jsval)
  | VObj (fields : gmap string jsval).

(** What can be thrown or be the reason of a rejected promise. *)
Inductive exn : Type :=
  | Error (message : string)        (* new Error(message) *)
  | TypeError (message : string)    (* raised by the engine itself *)
  | RemoteError (detail : string)   (* client.chat.completions.create rejected *)
  | FsError (detail : string).      (* fs.mkdir or fs.writeFile rejected *)

Definition and_then {A B : Type} (r : exn + A) (k : A → exn + B) : exn + B :=
  match r with inl e => inl e | inr a => k a end.

(** What the conversion of an object to a string throws when neither
    [toString] nor [valueOf] gives a primitive. *)
Definition unprintable : exn :=
  TypeError "Cannot convert object to primitive value".

(** String conversion as a template literal performs it.  An array is
    joined, its [undefined] and [null] elements left empty.  An object that
    came out of [JSON.parse] has no function among its fields: with a field
    [toString] of its own the inherited method is hidden, [valueOf] gives the
    object back, and the conversion throws; without one it is
    [Object.prototype.toString] that answers. *)
Fixpoint ToString (v : jsval) : exn + string :=
  match v with
  | VUndefined => inr "undefined"
  | VNull => inr "null"
  | VBool b => inr (if b then "true" else "false")
  | VNum text => inr text
  | VStr s => inr s
  | VArr items =>
      let item x := match x with VUndefined | VNull => inr "" | _ => ToString x end in
      (fix join (l : list jsval) : exn + string :=
         match l with
         | [] => inr ""
         | [x] => item x
         | x :: rest =>
             and_then (item x) (λ first,
             and_then (join rest) (λ others,
             inr (first +:+ "," +:+ others)))
         end) items
  | VObj fields =>
      match fields !! "toString" with
      | Some _ => inl unprintable
      | None => inr "[object Object]"
      end
  end.

Definition nullish (v : jsval) : bool :=
  match v with VUndefined | VNull => true | _ => false end.

(** The error of a property read on [undefined] or [null]. *)
Definition cannot_read (v : jsval) (key : string) : exn :=
  TypeError ("Cannot read properties of "
             +:+ match v with VNull => "null" | _ => "undefined" end
             +:+ " (reading '" +:+ key +:+ "')").

(** [v.key], for the property names the programs read ([choices], [message],
    [role], [content]); none of them is inherited from a prototype, so only
    an object's own fields can answer. *)
Definition get (v : jsval) (key : string) : exn + jsval :=
  match v with
  | VUndefined | VNull => inl (cannot_read v key)
  | VObj fields => inr (default VUndefined (fields !! key))
  | _ => inr VUndefined
  end.

(** [v[i]] for an integer index. *)
Definition at_index (v : jsval) (i : nat) : exn + jsval :=
  match v with
  | VUndefined | VNull => inl (cannot_read v (pretty i))
  | VArr items => inr (default VUndefined (items !! i))
  | VStr s => inr (from_option (λ c, VStr (String c "")) VUndefined (String.get i s))
  | VObj fields => inr (default VUndefined (fields !! pretty i))
  | _ => inr VUndefined
  end.

(** [v?.key] *)
Definition get_opt (v : jsval) (key : string) : exn + jsval :=
  if nullish v then inr VUndefined else get v key.

(** ** The environment and what a process does to it *)

(** Outcome of one call of [client.chat.completions.create]. *)
Inductive reply : Type :=
  | Resolve (response : jsval)
  | Reject (detail : string).

Inductive event : Type :=
  | Prompt (ask : string)                              (* prompt-sync *)
  | Request (model : string) (messages : list jsval)   (* completion call *)
  | Stdout (args : list jsval)                         (* console.log *)
  | Stderr (label : string) (error : exn)              (* console.error *)
  | Mkdir (dir : string)                               (* fs.mkdir, recursive *)
  | WriteFile (path : string) (json : jsval).          (* JSON.stringify(json, null, 2) *)

(** Where a process is suspended when the environment has not answered. *)
Inductive phase : Type := AwaitingInput | Completing | Saving.

Inductive ending : Type :=
  | Exited (code : Z)      (* process.exit(code), or the event loop drained: 0 *)
  | Uncaught (e : exn)     (* thrown while the module loads *)
  | Blocked (p : phase).

(** Node reports an uncaught exception and exits with status 1. *)
Definition exit_status (e : ending) : option Z :=
  match e with
  | Exited code => Some code
  | Uncaught _ => Some 1%Z
  | Blocked _ => None
  end.

Definition requests (trace : list event) : list (list jsval) :=
  omap (λ ev, match ev with Request _ messages => Some messages | _ => None end) trace.

Definition model : string := "openai/gpt-oss-20b".

(** [dotenv.config()]: variables of the [.env] file are added to
    [process.env]; one that is already set keeps its value. *)
Definition dotenv_config (env file : gmap string string) : gmap string string :=
  env ∪ file.

(** [!process.env.GROQ_API_KEY] *)
Definition missing_key (env : gmap string string) : bool :=
  match env !! "GROQ_API_KEY" with
  | None => true
  | Some value => String.eqb value ""
  end.

Definition ConfigurationError : exn :=
  Error "GROQ_API_KEY is not defined in environment variables".

(** ** State and exceptions *)

Inductive outcome (A : Type) : Type :=
  | Ret (a : A)
  | Throw (e : exn)
  | Pending (p : phase).
Arguments Ret {A} a.
Arguments Throw {A} e.
Arguments Pending {A} p.

(** A computation over a store [S] returns, throws, or stays suspended on the
    environment; the store survives in all three cases. *)
Definition M (S A : Type) : Type := S → outcome A * S.

Section Monad.
Context {S : Type}.

Definition ret {A} (a : A) : M S A := λ st, (Ret a, st).
Definition throw {A} (e : exn) : M S A := λ st, (Throw e, st).
Definition suspend {A} (p : phase) : M S A := λ st, (Pending p, st).

Definition bind {A B} (m : M S A) (k : A → M S B) : M S B := λ st,
  match m st with
  | (Ret a, st') => k a st'
  | (Throw e, st') => (Throw e, st')
  | (Pending p, st') => (Pending p, st')
  end.

(** [try { body } catch (error) { handler }] *)
Definition try_catch {A} (body : M S A) (handler : exn → M S A) : M S A := λ st,
  match body st with
  | (Throw e, st') => handler e st'
  | other => other
  end.

Definition lift {A} (r : exn + A) : M S A :=
  match r with inl e => throw e | inr a => ret a end.

End Monad.

Notation "'let*' x := m 'in' k" := (bind m (λ x, k))
  (at level 10, x pattern, m at level 100, k at level 200).
Notation "m >> k" := (bind m (λ _, k))
  (at level 100, k at level 200, right associativity).

(** ** The chat bot, [src/chat-bot/index.ts] *)

Module ChatBot.

(** The module's mutable variable [chatMemory], with what is left of the
    remote service's script and the trace of what the process did. *)
Record state : Type := State {
  chatMemory : list jsval;
  remote : list reply;
  out : list event
}.

Definition system_turn : jsval :=
  VObj {[ "role" := VStr "system";
          "content" := VStr "You are my personal AI assistant. Your role is to provide clear, accurate, and well-structured responses to my queries. Always explain concepts in a simple way, offer practical examples when needed, and ensure your answers are relevant to my context as a software developer. If code is requested, provide clean, working, and well-commented code. Stay professional, concise, and supportive." ]}.

Definition user_turn (userInput : string) : jsval :=
  VObj {[ "role" := VStr "user"; "content" := VStr userInput ]}.

(** The statements through which the program touches its store and the
    world. *)
Inductive command : Type → Type :=
  | Memory : command (list jsval)                                   (* read chatMemory *)
  | Push (turn : jsval) : command unit                              (* chatMemory.push(turn) *)
  | Create (model : string) (messages : list jsval) : command jsval (* await client...create *)
  | Log (args : list jsval) : command unit                          (* console.log *)
  | Report (label : string) (error : exn) : command unit            (* console.error *)
  | Ask (ask : string) : command unit.                              (* the prompt is shown *)

Definition emit (ev : event) (st : state) : state :=
  State (chatMemory st) (remote st) (out st ++ [ev]).

Definition perform {A} (c : command A) : M state A :=
  match c in command T return M state T with
  | Memory => λ st, (Ret (chatMemory st), st)
  | Push turn => λ st, (Ret tt, State (chatMemory st ++ [turn]) (remote st) (out st))
  | Create model messages => λ st,
      let st' := emit (Request model messages) st in
      match remote st with
      | [] => (Pending Completing, st')
      | Resolve response :: later => (Ret response, State (chatMemory st') later (out st'))
      | Reject detail :: later =>
          (Throw (RemoteError detail), State (chatMemory st') later (out st'))
      end
  | Log args => λ st, (Ret tt, emit (Stdout args) st)
  | Report label error => λ st, (Ret tt, emit (Stderr label error) st)
  | Ask ask => λ st, (Ret tt, emit (Prompt ask) st)
  end.

(** [response.choices[0].message] *)
Definition first_message (response : jsval) : exn + jsval :=
  and_then (get response "choices") (λ choices,
  and_then (at_index choices 0) (λ choice,
  get choice "message")).

(** The object literal of lines 180-183. *)
Definition stored_turn (role content : jsval) : jsval :=
  VObj {[ "role" := role; "content" := content ]}.

(** The template literal of line 187. *)
Definition assistant_line (role content : jsval) : exn + string :=
  and_then (ToString role) (λ shown_role,
  and_then (ToString content) (λ shown_content,
  inr ("Assistant: " +:+ shown_role +:+ ", " +:+ shown_content))).

Definition chatCompletion : M state unit :=
  let* messages := perform Memory in
  let* response := perform (Create model messages) in
  let* responseMessage := lift (first_message response) in
  let* role := lift (get responseMessage "role") in
  let* content := lift (get responseMessage "content") in
  perform (Push (stored_turn role content)) >>
  let* line := lift (assistant_line role content) in
  perform (Log [VStr line]).

Section Host.

(** [String.prototype.toLocaleLowerCase] as the host performs it: the result
    depends on the locale the process runs in. *)
Variable toLocaleLowerCase : string → string.

Definition is_exit (userInput : string) : bool :=
  String.eqb (toLocaleLowerCase userInput) "exit".

(** The [while (true)] of [main]; [stdin] is what the operator will type,
    one line per turn. *)
Fixpoint loop (stdin : list string) : M state unit :=
  perform (Ask "Enter your message : ") >>
  match stdin with
  | [] => suspend AwaitingInput
  | userInput :: stdin' =>
      if is_exit userInput
      then perform (Log [VStr "Exiting chat bot..."])
      else perform (Push (user_turn userInput)) >>
           chatCompletion >>
           loop stdin'
  end.

Definition banner : string :=
  "Chat bot started. Type 'exit' to end the conversation." +:+ String (Ascii.ascii_of_nat 10) "".

Definition main (stdin : list string) : M state unit :=
  perform (Log [VStr banner]) >> loop stdin.

(** [main().catch(...)], lines 238-241. *)
Definition entry (m : M state unit) (st : state) : ending * state :=
  match m st with
  | (Ret _, st') => (Exited 0, st')
  | (Throw e, st') =>
      (Exited 1, (perform (Report "Unexpected error in chat bot:" e) st').2)
  | (Pending p, st') => (Blocked p, st')
  end.

Definition boot (remote : list reply) : state := State [system_turn] remote [].

(** The whole module: configuration, the key check of lines 126-128, then
    [main]. *)
Definition program (env file : gmap string string)
    (stdin : list string) (remote : list reply) : ending * state :=
  if missing_key (dotenv_config env file)
  then (Uncaught ConfigurationError, State [] remote [])
  else entry (main stdin) (boot remote).

End Host.

End ChatBot.

(** ** The basics demo, [src/basics/index.ts] *)

Module Basics.

(** What the process is given by its host: [process.cwd()], the rendering of
    [Date.now()], and [path.join] as the platform performs it. *)
Record host : Type := Host {
  cwd : string;
  now : string;
  join : string → string → string
}.

(** The remote service's script, the file system's (one entry per call:
    [None] fulfils it, [Some detail] rejects it) and the trace. *)
Record state : Type := State {
  remote : list reply;
  disk : list (option string);
  out : list event
}.

Inductive command : Type → Type :=
  | Create (model : string) (messages : list jsval) : command jsval (* await client...create *)
  | MakeDir (dir : string) : command unit                           (* await fs.mkdir *)
  | Write (path : string) (json : jsval) : command unit             (* await fs.writeFile *)
  | Log (args : list jsval) : command unit                          (* console.log *)
  | Report (label : string) (error : exn) : command unit.           (* console.error *)

Definition emit (ev : event) (st : state) : state :=
  State (remote st) (disk st) (out st ++ [ev]).

Definition fs_call (ev : event) : M state unit := λ st,
  let st' := emit ev st in
  match disk st with
  | [] => (Pending Saving, st')
  | None :: later => (Ret tt, State (remote st') later (out st'))
  | Some detail :: later => (Throw (FsError detail), State (remote st') later (out st'))
  end.

Definition perform {A} (c : command A) : M state A :=
  match c in command T return M state T with
  | Create model messages => λ st,
      let st' := emit (Request model messages) st in
      match remote st with
      | [] => (Pending Completing, st')
      | Resolve response :: later => (Ret response, State later (disk st') (out st'))
      | Reject detail :: later =>
          (Throw (RemoteError detail), State later (disk st') (out st'))
      end
  | MakeDir dir => fs_call (Mkdir dir)
  | Write path json => fs_call (WriteFile path json)
  | Log args => λ st, (Ret tt, emit (Stdout args) st)
  | Report label error => λ st, (Ret tt, emit (Stderr label error) st)
  end.

Definition saveResponseToFile (h : host) (data : jsval) (filename : string)
    : M state string :=
  try_catch
    (let dataDir := join h (cwd h) "data" in
     perform (MakeDir dataDir) >>
     let filePath := join h dataDir filename in
     perform (Write filePath data) >>
     perform (Log [VStr ("Response saved to: " +:+ filePath)]) >>
     ret filePath)
    (λ error,
     perform (Report "Error saving file:" error) >>
     throw error).

Definition conversation : list jsval :=
  [ VObj {[ "role" := VStr "system"; "content" := VStr "You are a helpful coding assistant." ]};
    VObj {[ "role" := VStr "user"; "content" := VStr "Hello, how are you?" ]};
    VObj {[ "role" := VStr "assistant"; "content" := VStr "I'm good! How can I help you today?" ]};
    VObj {[ "role" := VStr "user";
            "content" := VStr "Kindly provide me with the JavaScript code solution for the Target Sum problem" ]} ].

(** [response.choices[0]?.message?.content] *)
Definition first_content (response : jsval) : exn + jsval :=
  and_then (get response "choices") (λ choices,
  and_then (at_index choices 0) (λ choice,
  and_then (get_opt choice "message") (λ message,
  get_opt message "content"))).

(** The [try] block of [main], lines 85-116. *)
Definition attempt (h : host) : M state unit :=
  let* response := perform (Create model conversation) in
  let filename := "response_" +:+ now h +:+ ".json" in
  let* filePath := saveResponseToFile h response filename in
  let* content := lift (first_content response) in
  perform (Log [VStr "AI Response:"; content]) >>
  perform (Log [VStr ("Full response saved to: " +:+ filePath)]).

Definition main (h : host) : M state unit :=
  try_catch (attempt h)
    (λ error, perform (Report "Error in main function:" error)).

(** [main().catch(...)], lines 131-134. *)
Definition entry (m : M state unit) (st : state) : ending * state :=
  match m st with
  | (Ret _, st') => (Exited 0, st')
  | (Throw e, st') =>
      (Exited 1, (perform (Report "Unhandled error in execution:" e) st').2)
  | (Pending p, st') => (Blocked p, st')
  end.

Definition boot (remote : list reply) (disk : list (option string)) : state :=
  State remote disk [].

(** The whole module: configuration, the key check of lines 19-21, then
    [main]. *)
Definition program (env file : gmap string string) (h : host)
    (remote : list reply) (disk : list (option string)) : ending * state :=
  if missing_key (dotenv_config env file)
  then (Uncaught ConfigurationError, boot remote disk)
  else entry (main h) (boot remote disk).

End Basics.

(** ** Vocabulary of the properties *)

Definition role_of (turn : jsval) : exn + jsval := get turn "role".

(** The shape a completion response is documented to have: a non-empty
    [choices] array whose first element carries a [message] object with role
    ["assistant"] and a [content] that is text or [null]. *)
Definition well_formed (response : jsval) : bool :=
  match response with
  | VObj r =>
      match r !! "choices" with
      | Some (VArr (VObj choice :: _)) =>
          match choice !! "message" with
          | Some (VObj message) =>
              match message !! "role", message !! "content" with
              | Some (VStr role), Some (VStr _ | VNull) => String.eqb role "assistant"
              | _, _ => false
              end
          | _ => false
          end
      | _ => false
      end
  | _ => false
  end.

(** There is something, neither [undefined] nor [null], at
    [choices[0].message]: [choices] is an array (or an object with a field
    ["0"]) whose first element is an object with such a field. *)
Definition has_message (response : jsval) : bool :=
  match response with
  | VObj r =>
      let first :=
        match r !! "choices" with
        | Some (VArr (choice :: _)) => Some choice
        | Some (VObj indexed) => indexed !! "0"
        | _ => None
        end in
      match first with
      | Some (VObj choice) =>
          match choice !! "message" with
          | Some message => negb (nullish message)
          | None => false
          end
      | _ => false
      end
  | _ => false
  end.

(** [v.key] where [v] is neither [undefined] nor [null]. *)
Definition field (v : jsval) (key : string) : jsval :=
  match v with
  | VObj fields => default VUndefined (fields !! key)
  | _ => VUndefined
  end.

(** What there is at [choices[0].message] of a response, [undefined] when
    there is nothing. *)
Definition message_of (response : jsval) : jsval :=
  match response with
  | VObj r =>
      match r !! "choices" with
      | Some (VArr (choice :: _)) => field choice "message"
      | Some (VObj indexed) =>
          match indexed !! "0" with
          | Some choice => field choice "message"
          | None => VUndefined
          end
      | _ => VUndefined
      end
  | _ => VUndefined
  end.

(** A value a template literal can show: no object with a field [toString]
    of its own in it, other than inside another object. *)
Fixpoint printable (v : jsval) : bool :=
  match v with
  | VArr items =>
      (fix all (l : list jsval) : bool :=
         match l with
         | [] => true
         | x :: rest => printable x && all rest
         end) items
  | VObj fields => bool_decide (fields !! "toString" = None)
  | _ => true
  end.

(** A response [chatCompletion] returns on: a message is there, and its role
    and content can be shown. *)
Definition accepted (response : jsval) : bool :=
  has_message response
  && printable (field (message_of response) "role")
  && printable (field (message_of response) "content").

(** The state in which [chatCompletion] waits for the service. *)
Definition called (st : ChatBot.state) : ChatBot.state :=
  ChatBot.emit (Request model (ChatBot.chatMemory st)) st.

(** and the one in which it has its answer. *)
Definition answered (st : ChatBot.state) : ChatBot.state :=
  ChatBot.State (ChatBot.chatMemory st) (tail (ChatBot.remote st))
    (ChatBot.out st ++ [Request model (ChatBot.chatMemory st)]).

(** The loop has shown its prompt, *)
Definition prompted (st : ChatBot.state) : ChatBot.state :=
  ChatBot.emit (Prompt "Enter your message : ") st.

(** and has recorded what the operator typed. *)
Definition told (userInput : string) (st : ChatBot.state) : ChatBot.state :=
  ChatBot.State (ChatBot.chatMemory st ++ [ChatBot.user_turn userInput])
    (ChatBot.remote st) (ChatBot.out (prompted st)).

(** A history after the system turn: for each line typed, the user turn that
    holds it, then a turn whose role is ["assistant"]. *)
Inductive dialogue : list string → list jsval → Prop :=
  | dialogue_nil : dialogue [] []
  | dialogue_cons userInput inputs reply turns :
      role_of (ChatBot.user_turn userInput) = inr (VStr "user") →
      role_of reply = inr (VStr "assistant") →
      dialogue inputs turns →
      dialogue (userInput :: inputs) (ChatBot.user_turn userInput :: reply :: turns).

(** The five ways a call of [chatCompletion] can go. *)
Inductive completion (st : ChatBot.state) : outcome unit → ChatBot.state → Prop :=
  | completion_hung :
      ChatBot.remote st = [] →
      completion st (Pending Completing) (called st)
  | completion_rejected detail later :
      ChatBot.remote st = Reject detail :: later →
      completion st (Throw (RemoteError detail)) (answered st)
  | completion_unreadable response later text :
      ChatBot.remote st = Resolve response :: later →
      has_message response = false →
      completion st (Throw (TypeError text)) (answered st)
  | completion_unprintable response later role content :
      ChatBot.remote st = Resolve response :: later →
      has_message response = true →
      role = field (message_of response) "role" →
      content = field (message_of response) "content" →
      printable role && printable content = false →
      completion st (Throw unprintable)
        (ChatBot.State
           (ChatBot.chatMemory st ++ [ChatBot.stored_turn role content]) later
           (ChatBot.out (answered st)))
  | completion_stored response later role content line :
      ChatBot.remote st = Resolve response :: later →
      has_message response = true →
      role = field (message_of response) "role" →
      content = field (message_of response) "content" →
      printable role && printable content = true →
      ChatBot.assistant_line role content = inr line →
      completion st (Ret tt)
        (ChatBot.State
           (ChatBot.chatMemory st ++ [ChatBot.stored_turn role content]) later
           (ChatBot.out (answered st) ++ [Stdout [VStr line]])).

(** ** Sample environments *)

Definition demo_env : gmap string string := {[ "GROQ_API_KEY" := "gsk_demo" ]}.

(** A response of the shape the service documents, here with a field the
    chat bot never reads. *)
Definition answer (content : string) : jsval :=
  VObj {[ "choices" :=
            VArr [VObj {[ "index" := VNum "0";
                          "message" := VObj {[ "role" := VStr "assistant";
                                               "content" := VStr content;
                                               "tool_calls" := VArr [] ]} ]}] ]}.

Definition assistant_turn (content : string) : jsval :=
  ChatBot.stored_turn (VStr "assistant") (VStr content).

(** A response whose message has neither role nor content. *)
Definition hollow : jsval :=
  VObj {[ "choices" := VArr [VObj {[ "message" := VObj ∅ ]}] ]}.

(** A host in whose locale lower-casing is that of the Latin capitals. *)
Definition lower (c : Ascii.ascii) : Ascii.ascii :=
  let n := Ascii.nat_of_ascii c in
  if (65 <=? n)%nat && (n <=? 90)%nat then Ascii.ascii_of_nat (n + 32) else c.

Fixpoint latin_lower (s : string) : string :=
  match s with
  | EmptyString => EmptyString
  | String c rest => String (lower c) (latin_lower rest)
  end.

(** and a platform where [path.join] of a directory and a plain name puts a
    slash between them. *)
Definition posix_join (dir name : string) : string := dir +:+ "/" +:+ name.

Definition demo_host : Basics.host :=
  Basics.Host "/home/dev/app" "1700000000000" posix_join.

(** A reply whose content cannot be shown. *)
Definition opaque : jsval :=
  VObj {[ "choices" :=
            VArr [VObj {[ "message" :=
                            VObj {[ "role" := VStr "assistant";
                                    "content" := VObj {[ "toString" := VNum "1" ]} ]} ]}] ]}.

(** ** The source dump, [script/copy-file.js] *)

Module CopyFile.

(** What [readdirSync] with file types finds under a name. *)
Inductive node : Type :=
  | File (content : string)               (* readFileSync returns content *)
  | Unreadable (error : string)           (* a file readFileSync throws on *)
  | Dir (entries : list (string * node))  (* in the order readdirSync lists them *)
  | Denied (error : string)               (* a directory readdirSync throws on *)
  | Other.                                (* neither isFile() nor isDirectory() *)

(** The content of [output.txt], which lies outside the tree that is read and
    stays writable, and what the script printed. *)
Record state : Type := State {
  outputFile : string;
  console : list event
}.

Definition isDirectory (entry : node) : bool :=
  match entry with Dir _ | Denied _ => true | _ => false end.

Definition isFile (entry : node) : bool :=
  match entry with File _ | Unreadable _ => true | _ => false end.

Definition readFileSync (entry : node) : exn + string :=
  match entry with
  | File content => inr content
  | Unreadable error => inl (FsError error)
  | _ => inl (FsError "EISDIR: illegal operation on a directory, read")
  end.

Definition writeFileSync (data : string) : M state unit := λ st,
  (Ret tt, State data (console st)).

Definition appendFileSync (data : string) : M state unit := λ st,
  (Ret tt, State (outputFile st +:+ data) (console st)).

(** [`${error}`]; a file-system error is carried by its rendering. *)
Definition error_text (e : exn) : string :=
  match e with
  | Error message => "Error: " +:+ message
  | TypeError message => "TypeError: " +:+ message
  | RemoteError detail => detail
  | FsError detail => detail
  end.

Definition nl : string := String (Ascii.ascii_of_nat 10) "".

(** [s.repeat(n)] *)
Fixpoint repeat_string (s : string) (n : nat) : string :=
  match n with
  | 0 => ""
  | S n' => s +:+ repeat_string s n'
  end.

Definition rule : string := repeat_string "-" 50.

Definition skipped (name : string) : bool :=
  String.eqb name "_pycache_" || String.eqb name "env".

Section Traversal.

(** [path.join] of the platform the script runs on. *)
Variable join : string → string → string.

(** [d] is what there is at [dir]. *)
Fixpoint processDirectory (dir : string) (d : node) {struct d} : M state unit :=
  match d with
  | Dir entries =>
      (fix forEach (l : list (string * node)) : M state unit :=
         match l with
         | [] => ret tt
         | (name, entry) :: rest =>
             (let entryPath := join dir name in
              if isDirectory entry && skipped name then ret tt
              else if isDirectory entry then processDirectory entryPath entry
              else if isFile entry then
                try_catch
                  (let* content := lift (readFileSync entry) in
                   appendFileSync ("File Path: " +:+ entryPath +:+ nl) >>
                   appendFileSync ("Contents:" +:+ nl) >>
                   appendFileSync content >>
                   appendFileSync (nl +:+ rule +:+ nl +:+ nl))
                  (λ error,
                   appendFileSync ("Could not read " +:+ entryPath +:+ ": "
                                   +:+ error_text error +:+ nl) >>
                   appendFileSync (rule +:+ nl +:+ nl))
              else ret tt) >>
             forEach rest
         end) entries
  | Denied error => throw (FsError error)
  | _ => throw (FsError "ENOTDIR: not a directory, scandir")
  end.

(** The callback of [entries.forEach], and the iteration. *)
Definition visit (dir name : string) (entry : node) : M state unit :=
  let entryPath := join dir name in
  if isDirectory entry && skipped name then ret tt
  else if isDirectory entry then processDirectory entryPath entry
  else if isFile entry then
    try_catch
      (let* content := lift (readFileSync entry) in
       appendFileSync ("File Path: " +:+ entryPath +:+ nl) >>
       appendFileSync ("Contents:" +:+ nl) >>
       appendFileSync content >>
       appendFileSync (nl +:+ rule +:+ nl +:+ nl))
      (λ error,
       appendFileSync ("Could not read " +:+ entryPath +:+ ": "
                       +:+ error_text error +:+ nl) >>
       appendFileSync (rule +:+ nl +:+ nl))
  else ret tt.

Fixpoint forEach (dir : string) (entries : list (string * node)) : M state unit :=
  match entries with
  | [] => ret tt
  | (name, entry) :: rest => visit dir name entry >> forEach dir rest
  end.

Definition rootDir : string := "C:/Users/Pawan/Desktop/Langchain-Langgraph/src".

(** Lines 38-43: clear the output file, walk the tree, say so. *)
Definition script (root : node) : M state unit :=
  writeFileSync "" >>
  processDirectory rootDir root >>
  (λ st, (Ret tt,
          State (outputFile st)
            (console st
             ++ [Stdout [VStr "All file paths and contents have been stored in output.txt."]]))).

Definition run (root : node) (st : state) : ending * state :=
  match script root st with
  | (Ret _, st') => (Exited 0, st')
  | (Throw e, st') => (Uncaught e, st')
  | (Pending p, st') => (Blocked p, st')
  end.

(** What the walk writes for one file. *)
Definition record (entryPath : string) (entry : node) : string :=
  match entry with
  | File content =>
      "File Path: " +:+ entryPath +:+ nl +:+ "Contents:" +:+ nl +:+ content
      +:+ nl +:+ rule +:+ nl +:+ nl
  | Unreadable error =>
      "Could not read " +:+ entryPath +:+ ": " +:+ error +:+ nl
      +:+ rule +:+ nl +:+ nl
  | _ => ""
  end.

(** The files of a tree with their paths, depth first, in listing order,
    those under a directory named [_pycache_] or [env] left out. *)
Fixpoint listing (dir : string) (d : node) {struct d} : list (string * node) :=
  match d with
  | Dir entries =>
      (fix each (l : list (string * node)) : list (string * node) :=
         match l with
         | [] => []
         | (name, entry) :: rest =>
             (if isDirectory entry
              then if skipped name then [] else listing (join dir name) entry
              else if isFile entry then [(join dir name, entry)] else [])
             ++ each rest
         end) entries
  | _ => []
  end.

Definition dump (files : list (string * node)) : string :=
  foldr (λ file text, record file.1 file.2 +:+ text) "" files.

(** The files the walk has come to, with their paths, and the error of the
    directory it could not list, if there is one: the walk stops there. *)
Fixpoint survey (dir : string) (d : node) {struct d}
    : list (string * node) * option string :=
  match d with
  | Dir entries =>
      (fix each (l : list (string * node)) : list (string * node) * option string :=
         match l with
         | [] => ([], None)
         | (name, entry) :: rest =>
             let here :=
               if isDirectory entry
               then if skipped name then ([], None) else survey (join dir name) entry
               else if isFile entry then ([(join dir name, entry)], None)
               else ([], None) in
             match here.2 with
             | Some error => here
             | None => (here.1 ++ (each rest).1, (each rest).2)
             end
         end) entries
  | Denied error => ([], Some error)
  | _ => ([], Some "ENOTDIR: not a directory, scandir")
  end.

End Traversal.

(** Every directory the walk enters can be listed. *)
Fixpoint listable (d : node) : bool :=
  match d with
  | Dir entries =>
      (fix all (l : list (string * node)) : bool :=
         match l with
         | [] => true
         | (name, entry) :: rest =>
             (if isDirectory entry then skipped name || listable entry else true)
             && all rest
         end) entries
  | _ => false
  end.

(** The tree without what the walk passes over: the directories named
    [_pycache_] or [env], and what is neither file nor directory. *)
Fixpoint prune (d : node) : node :=
  match d with
  | Dir entries =>
      Dir ((fix each (l : list (string * node)) : list (string * node) :=
              match l with
              | [] => []
              | (name, entry) :: rest =>
                  (if isDirectory entry
                   then if skipped name then [] else [(name, prune entry)]
                   else if isFile entry then [(name, entry)] else [])
                  ++ each rest
              end) entries)
  | other => other
  end.

End CopyFile.

(** ** Vocabulary of the further properties *)

(** A turn as the chat bot builds them. *)
Definition two_fields (turn : jsval) : Prop :=
  ∃ fields, turn = VObj fields ∧ dom fields = {[ "role"; "content" ]}.

(** The value of [GROQ_API_KEY] after [dotenv.config()]. *)
Definition effective_key (env file : gmap string string) : option string :=
  match env !! "GROQ_API_KEY" with
  | Some value => Some value
  | None => file !! "GROQ_API_KEY"
  end.

(** Where the basics demo saves a response: what [path.join] makes of the
    working directory, [data] and the file name with the time in it. *)
Definition saved_at (h : Basics.host) : string :=
  Basics.join h (Basics.join h (Basics.cwd h) "data")
    ("response_" +:+ Basics.now h +:+ ".json").

Definition sample_tree : CopyFile.node :=
  CopyFile.Dir
    [ ("index.ts", CopyFile.File "export {};");
      ("env", CopyFile.Denied "EACCES");
      ("env.ts", CopyFile.File "KEY");
      ("link", CopyFile.Other);
      ("lib", CopyFile.Dir
         [ ("_pycache_", CopyFile.Dir [("a.pyc", CopyFile.File "cache")]);
           ("locked.bin", CopyFile.Unreadable "EACCES: permission denied");
           ("empty", CopyFile.Dir []) ]) ].

(** ** Runs on sample environments *)

Example chat_ping_pong :
  ChatBot.program latin_lower demo_env ∅ ["ping"; "Exit"; "ignored"] [Resolve (answer "pong")]
  = (Exited 0,
     ChatBot.State
       [ChatBot.system_turn; ChatBot.user_turn "ping"; assistant_turn "pong"]
       []
       [Stdout [VStr ChatBot.banner];
        Prompt "Enter your message : ";
        Request model [ChatBot.system_turn; ChatBot.user_turn "ping"];
        Stdout [VStr "Assistant: assistant, pong"];
        Prompt "Enter your message : ";
        Stdout [VStr "Exiting chat bot..."]]).
Proof. vm_compute. reflexivity. Qed.

Example exit_word :
  ChatBot.is_exit latin_lower "EXIT" = true ∧ ChatBot.is_exit latin_lower "eXiT" = true
  ∧ ChatBot.is_exit latin_lower "exit " = false ∧ ChatBot.is_exit latin_lower "" = false.
Proof. repeat split. Qed.

Example chat_waits_for_operator :
  (ChatBot.program latin_lower demo_env ∅ [] []).1 = Blocked AwaitingInput.
Proof. reflexivity. Qed.

Example chat_empty_choices :
  ChatBot.program latin_lower demo_env ∅ ["ping"] [Resolve (VObj {[ "choices" := VArr [] ]})]
  = (Exited 1,
     ChatBot.State
       [ChatBot.system_turn; ChatBot.user_turn "ping"]
       []
       [Stdout [VStr ChatBot.banner];
        Prompt "Enter your message : ";
        Request model [ChatBot.system_turn; ChatBot.user_turn "ping"];
        Stderr "Unexpected error in chat bot:"
          (TypeError "Cannot read properties of undefined (reading 'message')")]).
Proof. vm_compute. reflexivity. Qed.

(** The turn is in the history when the template literal throws. *)
Example chat_opaque_content :
  ChatBot.program latin_lower demo_env ∅ ["ping"; "exit"] [Resolve opaque]
  = (Exited 1,
     ChatBot.State
       [ChatBot.system_turn; ChatBot.user_turn "ping";
        ChatBot.stored_turn (VStr "assistant") (VObj {[ "toString" := VNum "1" ]})]
       []
       [Stdout [VStr ChatBot.banner];
        Prompt "Enter your message : ";
        Request model [ChatBot.system_turn; ChatBot.user_turn "ping"];
        Stderr "Unexpected error in chat bot:"
          (TypeError "Cannot convert object to primitive value")]).
Proof. vm_compute. reflexivity. Qed.

Example shown_values :
  ToString (VArr [VStr "a"; VNull; VArr [VNum "1"; VNum "2"]; VObj ∅])
  = inr "a,,1,2,[object Object]"
  ∧ ToString (VArr [VStr "a"; VObj {[ "toString" := VNull ]}]) = inl unprintable.
Proof. split; reflexivity. Qed.

Example basics_happy_path :
  Basics.program demo_env ∅ demo_host [Resolve (answer "42")] [None; None]
  = (Exited 0,
     Basics.State [] []
       [Request model Basics.conversation;
        Mkdir "/home/dev/app/data";
        WriteFile "/home/dev/app/data/response_1700000000000.json" (answer "42");
        Stdout [VStr "Response saved to: /home/dev/app/data/response_1700000000000.json"];
        Stdout [VStr "AI Response:"; VStr "42"];
        Stdout [VStr "Full response saved to: /home/dev/app/data/response_1700000000000.json"]]).
Proof. vm_compute. reflexivity. Qed.

Example basics_disk_full :
  Basics.program demo_env ∅ demo_host [Resolve (answer "42")] [None; Some "ENOSPC"]
  = (Exited 0,
     Basics.State [] []
       [Request model Basics.conversation;
        Mkdir "/home/dev/app/data";
        WriteFile "/home/dev/app/data/response_1700000000000.json" (answer "42");
        Stderr "Error saving file:" (FsError "ENOSPC");
        Stderr "Error in main function:" (FsError "ENOSPC")]).
Proof. vm_compute. reflexivity. Qed.

(** ** Strings *)

Lemma append_cons c (s1 s2 : string) : String c s1 +:+ s2 = String c (s1 +:+ s2).
Proof. reflexivity. Qed.

Lemma append_nil_r (s : string) : s +:+ "" = s.
Proof. induction s as [|c s IH]; [done | by rewrite append_cons, IH]. Qed.

Lemma append_assoc (s1 s2 s3 : string) : (s1 +:+ s2) +:+ s3 = s1 +:+ s2 +:+ s3.
Proof. induction s1 as [|c s1 IH]; [done | by rewrite !append_cons, IH]. Qed.

Lemma length_append (s1 s2 : string) :
  String.length (s1 +:+ s2) = String.length s1 + String.length s2.
Proof. induction s1 as [|c s1 IH]; [done | rewrite append_cons; simpl; by rewrite IH]. Qed.

Lemma append_inv_r (s1 s2 tail : string) : s1 +:+ tail = s2 +:+ tail → s1 = s2.
Proof.
  revert s2. induction s1 as [|c s1 IH]; intros [|c' s2] Heq.
  - done.
  - apply (f_equal String.length) in Heq.
    rewrite append_cons in Heq. simpl in Heq. rewrite !length_append in Heq.
    simpl in Heq. lia.
  - apply (f_equal String.length) in Heq.
    rewrite append_cons in Heq. simpl in Heq. rewrite !length_append in Heq.
    simpl in Heq. lia.
  - rewrite !append_cons in Heq. simplify_eq. f_equal. by apply IH.
Qed.

(** ** Reading and showing values *)

(** Reading a property fails on [undefined] and [null] only, and then with
    a [TypeError]. *)
Lemma get_nullish v key :
  nullish v = true → get v key = inl (cannot_read v key).
Proof. destruct v; simpl; congruence. Qed.

Lemma get_defined v key :
  nullish v = false → get v key = inr (field v key).
Proof. destruct v; simpl; try congruence; eauto. Qed.

Lemma get_object fields key :
  get (VObj fields) key = inr (default VUndefined (fields !! key)).
Proof. reflexivity. Qed.

Lemma jsval_induction (P : jsval → Prop) :
  P VUndefined → P VNull → (∀ b, P (VBool b)) → (∀ text, P (VNum text)) →
  (∀ s, P (VStr s)) →
  (∀ items, Forall P items → P (VArr items)) →
  (∀ fields, P (VObj fields)) →
  ∀ v, P v.
Proof.
  intros HU HN HB HM HS HA HO. fix IH 1.
  intros [| |b|text|s|items|fields];
    [exact HU | exact HN | apply HB | apply HM | apply HS | | apply HO].
  apply HA. induction items as [|x items IHitems]; constructor.
  - apply IH.
  - exact IHitems.
Qed.

(** Showing a value fails exactly on what is not [printable], and then with
    the one error of the conversion. *)
Lemma ToString_printable v :
  if printable v then ∃ shown, ToString v = inr shown
  else ToString v = inl unprintable.
Proof.
  induction v as [| |b|text|s|items IH|fields] using jsval_induction;
    simpl; eauto.
  - induction items as [|x items IHitems]; [by eexists|].
    apply Forall_cons in IH as [Hx Hitems]. specialize (IHitems Hitems).
    assert (if printable x
            then ∃ shown, match x with
                          | VUndefined | VNull => inr ""
                          | _ => ToString x
                          end = inr shown
            else match x with
                 | VUndefined | VNull => inr ""
                 | _ => ToString x
                 end = inl unprintable) as Hitem.
    { destruct x; simpl in *; eauto. }
    change (printable (VArr (x :: items))) with (printable x && printable (VArr items)).
    change (printable (VArr items)) with
      ((fix all (l : list jsval) : bool :=
          match l with [] => true | y :: rest => printable y && all rest end) items)
      in IHitems.
    destruct items as [|y items].
    { rewrite andb_true_r. exact Hitem. }
    destruct (printable x).
    + destruct Hitem as [first ->]. cbn [and_then andb].
      match type of IHitems with
      | if ?b then _ else _ => destruct b
      end.
      * destruct IHitems as [others ->]. simpl. by eexists.
      * rewrite IHitems. done.
    + rewrite Hitem. done.
  - case_bool_decide as Hts.
    + rewrite Hts. by eexists.
    + destruct (fields !! "toString"); [done|congruence].
Qed.

Lemma assistant_line_shown role content :
  printable role && printable content = true →
  ∃ line, ChatBot.assistant_line role content = inr line.
Proof.
  intros [Hr Hc]%andb_prop. unfold ChatBot.assistant_line.
  pose proof (ToString_printable role) as H1. rewrite Hr in H1.
  pose proof (ToString_printable content) as H2. rewrite Hc in H2.
  destruct H1 as [shown_role ->], H2 as [shown_content ->]. by eexists.
Qed.

Lemma assistant_line_fails role content :
  printable role && printable content = false →
  ChatBot.assistant_line role content = inl unprintable.
Proof.
  intros H. unfold ChatBot.assistant_line.
  pose proof (ToString_printable role) as H1.
  pose proof (ToString_printable content) as H2.
  destruct (printable role).
  - destruct (printable content); [done|].
    destruct H1 as [shown_role ->]. simpl. by rewrite H2.
  - by rewrite H1.
Qed.

Lemma first_message_present response :
  has_message response = true →
  ChatBot.first_message response = inr (message_of response)
  ∧ nullish (message_of response) = false.
Proof.
  unfold has_message, ChatBot.first_message, message_of.
  destruct response as [| | | | | |r]; try discriminate.
  rewrite get_object. simpl.
  destruct (r !! "choices") as [choices|]; [|discriminate].
  destruct choices as [| | | | |items|indexed]; try discriminate; simpl.
  - destruct items as [|choice items]; [discriminate|]. simpl.
    destruct choice; try discriminate. simpl.
    destruct (fields !! "message") as [message|]; [|discriminate].
    intros Hm. split; [reflexivity|]. by apply negb_true_iff.
  - change (pretty 0) with "0".
    destruct (indexed !! "0") as [choice|]; [|discriminate]. simpl.
    destruct choice; try discriminate. simpl.
    destruct (fields !! "message") as [message|]; [|discriminate].
    intros Hm. split; [reflexivity|]. by apply negb_true_iff.
Qed.

Lemma first_message_absent response :
  has_message response = false →
  (∃ text, ChatBot.first_message response = inl (TypeError text))
  ∨ (∃ message, ChatBot.first_message response = inr message ∧ nullish message = true).
Proof.
  unfold has_message, ChatBot.first_message.
  destruct response as [| | | | | |r]; simpl; eauto.
  destruct (r !! "choices") as [choices|]; simpl; [|eauto].
  destruct choices as [| | | | |items|indexed]; simpl; eauto.
  - destruct (String.get 0 s); simpl; eauto.
  - destruct items as [|choice items]; simpl; [eauto|].
    destruct choice; simpl; eauto.
    destruct (fields !! "message") as [message|]; simpl; [|eauto].
    intros Hm. right. exists message. split; [reflexivity|].
    by apply negb_false_iff.
  - change (pretty 0) with "0".
    destruct (indexed !! "0") as [choice|]; simpl; [|eauto].
    destruct choice; simpl; eauto.
    destruct (fields !! "message") as [message|]; simpl; [|eauto].
    intros Hm. right. exists message. split; [reflexivity|].
    by apply negb_false_iff.
Qed.

Lemma well_formed_has_message response :
  well_formed response = true → has_message response = true.
Proof.
  unfold well_formed, has_message.
  destruct response as [| | | | | |r]; try done.
  destruct (r !! "choices") as [[| | | | |[|[| | | | | |choice] items]|]|]; try done.
  destruct (choice !! "message") as [[| | | | | |message]|]; done.
Qed.

(** A response of the documented shape is accepted, and what is kept of it
    is an assistant turn. *)
Lemma well_formed_accepted response :
  well_formed response = true →
  accepted response = true
  ∧ field (message_of response) "role" = VStr "assistant".
Proof.
  intros Hwf. unfold accepted. rewrite (well_formed_has_message _ Hwf).
  revert Hwf. unfold well_formed, message_of.
  destruct response as [| | | | | |r]; try done.
  destruct (r !! "choices") as [[| | | | |[|[| | | | | |choice] items]|]|]; try done.
  simpl. destruct (choice !! "message") as [[| | | | | |message]|]; try done.
  simpl. destruct (message !! "role") as [[| | | |role| |]|]; try done.
  destruct (message !! "content") as [[| | | |content| |]|]; try done;
    simpl; intros ->%String.eqb_eq; done.
Qed.

(** ** How [chatCompletion] runs *)

Import ChatBot.

Lemma chatCompletion_pending st :
  remote st = [] → chatCompletion st = (Pending Completing, called st).
Proof. intros Hr. unfold chatCompletion, bind; simpl. rewrite Hr. reflexivity. Qed.

Lemma chatCompletion_reject st detail later :
  remote st = Reject detail :: later →
  chatCompletion st = (Throw (RemoteError detail), answered st).
Proof.
  intros Hr. unfold chatCompletion, bind, answered; simpl.
  rewrite Hr. reflexivity.
Qed.

Lemma chatCompletion_resolve st response later :
  remote st = Resolve response :: later →
  chatCompletion st =
    match first_message response with
    | inl e => (Throw e, answered st)
    | inr responseMessage =>
        match get responseMessage "role", get responseMessage "content" with
        | inr role, inr content =>
            let st' :=
              State (chatMemory st ++ [stored_turn role content]) later
                (out (answered st)) in
            match assistant_line role content with
            | inr line => (Ret tt, emit (Stdout [VStr line]) st')
            | inl e => (Throw e, st')
            end
        | inl e, _ | _, inl e => (Throw e, answered st)
        end
    end.
Proof.
  intros Hr. unfold chatCompletion, bind, answered; simpl. rewrite Hr; simpl.
  destruct (first_message response) as [e|m]; simpl; [reflexivity|].
  destruct (get m "role") as [e|role]; simpl; [reflexivity|].
  destruct (get m "content") as [e|content]; simpl; [reflexivity|].
  destruct (assistant_line role content) as [e|line]; reflexivity.
Qed.

Lemma chatCompletion_cases st :
  completion st (chatCompletion st).1 (chatCompletion st).2.
Proof.
  destruct (remote st) as [|[response|detail] later] eqn:Hr.
  - rewrite chatCompletion_pending by done. by constructor.
  - rewrite (chatCompletion_resolve _ _ _ Hr).
    destruct (has_message response) eqn:Hm.
    + destruct (first_message_present _ Hm) as (Hfirst & Hn).
      rewrite Hfirst, !(get_defined _ _ Hn). cbn zeta.
      destruct (printable (field (message_of response) "role")
                && printable (field (message_of response) "content")) eqn:Hshown.
      * destruct (assistant_line_shown _ _ Hshown) as [line Hline].
        rewrite Hline. simpl. by eapply completion_stored.
      * rewrite (assistant_line_fails _ _ Hshown). simpl.
        by eapply completion_unprintable.
    + destruct (first_message_absent _ Hm) as [[text ->]|(message & -> & Hn)].
      * simpl. by eapply completion_unreadable.
      * rewrite (get_nullish _ "role" Hn). simpl.
        by eapply completion_unreadable.
  - rewrite (chatCompletion_reject _ _ _ Hr). simpl. by eapply completion_rejected.
Qed.

Lemma chatCompletion_accepts st response later :
  remote st = Resolve response :: later →
  accepted response = true →
  ∃ line,
    chatCompletion st
    = (Ret tt,
       State (chatMemory st
              ++ [stored_turn (field (message_of response) "role")
                    (field (message_of response) "content")])
         later (out (answered st) ++ [Stdout [VStr line]])).
Proof.
  intros Hr [[Hm Hrole]%andb_prop Hcontent]%andb_prop.
  rewrite (chatCompletion_resolve _ _ _ Hr).
  destruct (first_message_present _ Hm) as [-> Hn].
  rewrite !(get_defined _ _ Hn). cbn zeta.
  destruct (assistant_line_shown (field (message_of response) "role")
              (field (message_of response) "content")) as [line ->];
    [by rewrite Hrole, Hcontent|].
  by exists line.
Qed.

Lemma chatCompletion_history st :
  chatMemory (chatCompletion st).2 = chatMemory st
  ∨ ∃ turn, chatMemory (chatCompletion st).2 = chatMemory st ++ [turn].
Proof.
  destruct (chatCompletion_cases st); simpl; eauto.
Qed.

Lemma chatCompletion_trace st :
  ∃ later,
    out (chatCompletion st).2 = out st ++ Request model (chatMemory st) :: later
    ∧ requests later = [].
Proof.
  destruct (chatCompletion_cases st); simpl.
  1-4: by exists [].
  eexists [_]. by rewrite <- app_assoc.
Qed.

(** ** What is kept of a response *)

(** C10.  From a response with a message at [choices[0]], whether or not
    the call then returns, the turn added to the history is an object with
    the two fields [role] and [content] and no other; their values are
    those of the message's fields of these names, [undefined] for one the
    message lacks, and nothing else of the message or of the response is
    kept.  Whenever [chatCompletion] returns, it has added such a turn. *)
Theorem stored_turn_has_two_fields :
  (∀ st r choice others message later,
     remote st = Resolve (VObj r) :: later →
     r !! "choices" = Some (VArr (VObj choice :: others)) →
     choice !! "message" = Some (VObj message) →
     ∃ fields,
       chatMemory (chatCompletion st).2 = chatMemory st ++ [VObj fields]
       ∧ dom fields = {[ "role"; "content" ]}
       ∧ fields !! "role" = Some (default VUndefined (message !! "role"))
       ∧ fields !! "content" = Some (default VUndefined (message !! "content"))
       ∧ ∀ key, key ≠ "role" → key ≠ "content" → fields !! key = None)
  ∧ (∀ st,
       (chatCompletion st).1 = Ret tt →
       ∃ response later,
         remote st = Resolve response :: later
         ∧ has_message response = true
         ∧ chatMemory (chatCompletion st).2
           = chatMemory st
             ++ [VObj {[ "role" := field (message_of response) "role";
                         "content" := field (message_of response) "content" ]}]).
Proof.
  split.
  - intros st r choice others message later Hr Hchoices Hmessage.
    exists {[ "role" := default VUndefined (message !! "role");
              "content" := default VUndefined (message !! "content") ]}.
    repeat split; try done.
    + rewrite (chatCompletion_resolve _ _ _ Hr).
      unfold first_message. rewrite get_object, Hchoices. simpl.
      rewrite Hmessage. simpl.
      by destruct (assistant_line _ _).
    + intros key Hrole Hcontent.
      by rewrite lookup_insert_ne, lookup_singleton_ne.
  - intros st. destruct (chatCompletion_cases st); simpl; try done. intros _.
    subst. by exists response, later.
Qed.

Lemma stored_turn_has_two_fields_witness :
  ∃ fields,
    chatMemory (chatCompletion (boot [Resolve (answer "pong")])).2
    = [system_turn; VObj fields]
    ∧ fields !! "role" = Some (VStr "assistant")
    ∧ fields !! "content" = Some (VStr "pong")
    ∧ fields !! "tool_calls" = None.
Proof.
  destruct (proj1 stored_turn_has_two_fields (boot [Resolve (answer "pong")])
              {[ "choices" :=
                   VArr [VObj {[ "index" := VNum "0";
                                 "message" := VObj {[ "role" := VStr "assistant";
                                                      "content" := VStr "pong";
                                                      "tool_calls" := VArr [] ]} ]}] ]}
              {[ "index" := VNum "0";
                 "message" := VObj {[ "role" := VStr "assistant";
                                      "content" := VStr "pong";
                                      "tool_calls" := VArr [] ]} ]}
              []
              {[ "role" := VStr "assistant"; "content" := VStr "pong";
                 "tool_calls" := VArr [] ]}
              [])
    as (fields & Hmem & _ & Hrole & Hcontent & Hother).
  - reflexivity.
  - reflexivity.
  - reflexivity.
  - exists fields. split; [exact Hmem|]. split; [exact Hrole|].
    split; [exact Hcontent|]. by apply Hother.
Defined.

(** ** Malformed responses *)

(** C8, as the code has it.  A response with nothing at [choices[0].message]
    (no [choices], an empty [choices], a first choice without [message])
    makes [chatCompletion] throw, a [TypeError] of the engine, and nothing
    is added to the history.  With something there, the turn is added
    whatever the message holds, [undefined] standing for a role or a content
    it lacks, and [chatCompletion] returns whenever role and content can be
    shown, as [undefined] can. *)
Theorem missing_message_is_fatal (st : state) (response : jsval) (later : list reply) :
  remote st = Resolve response :: later →
  (has_message response = false →
     ∃ text, (chatCompletion st).1 = Throw (TypeError text)
             ∧ chatMemory (chatCompletion st).2 = chatMemory st)
  ∧ (has_message response = true →
       chatMemory (chatCompletion st).2
       = chatMemory st
         ++ [stored_turn (field (message_of response) "role")
               (field (message_of response) "content")]
       ∧ (printable (field (message_of response) "role") = true →
          printable (field (message_of response) "content") = true →
          (chatCompletion st).1 = Ret tt)).
Proof.
  intros Hr.
  destruct (chatCompletion_cases st)
    as [Hrem|detail' later' Hrem|response' later' text Hrem Hmsg
       |response' later' role content Hrem Hmsg -> -> Hshown
       |response' later' role content line Hrem Hmsg -> -> Hshown Hline];
    rewrite Hr in Hrem; simplify_eq; split; intros Hm; try congruence.
  - by exists text.
  - split; [done|]. intros Hrole Hcontent.
    rewrite Hrole, Hcontent in Hshown. done.
  - done.
Qed.

Lemma missing_message_is_fatal_witness :
  ∃ text,
    (chatCompletion (boot [Resolve (VObj {[ "choices" := VArr [] ]})])).1
    = Throw (TypeError text).
Proof.
  destruct (proj1 (missing_message_is_fatal
                     (boot [Resolve (VObj {[ "choices" := VArr [] ]})])
                     (VObj {[ "choices" := VArr [] ]}) [] eq_refl))
    as (text & Hthrow & _).
  - vm_compute. reflexivity.
  - exists text. exact Hthrow.
Defined.

(** C8, the case that fails.  A response that lacks expected fields and is
    accepted all the same: the turn stored has [undefined] for role and for
    content. *)
Lemma hollow_message_is_accepted :
  well_formed hollow = false
  ∧ chatCompletion (boot [Resolve hollow])
    = (Ret tt,
       State [system_turn; stored_turn VUndefined VUndefined] []
         [Request model [system_turn];
          Stdout [VStr "Assistant: undefined, undefined"]]).
Proof. split; vm_compute; reflexivity. Qed.

(** ** How the basics demo runs *)

Lemma basics_main_catches h st :
  Basics.main h st
  = match Basics.attempt h st with
    | (Throw e, st') => (Ret tt, Basics.emit (Stderr "Error in main function:" e) st')
    | other => other
    end.
Proof. reflexivity. Qed.

(** All the ways the demo can go, by what the service and the file system
    answer. *)
Lemma basics_main_run h st :
  Basics.main h st
  = let sent := Basics.out st ++ [Request model Basics.conversation] in
    let dataDir := Basics.join h (Basics.cwd h) "data" in
    let failed (e : exn) := Stderr "Error in main function:" e in
    let unsaved (detail : string) := Stderr "Error saving file:" (FsError detail) in
    match Basics.remote st with
    | [] => (Pending Completing, Basics.State [] (Basics.disk st) sent)
    | Reject detail :: later =>
        (Ret tt, Basics.State later (Basics.disk st) (sent ++ [failed (RemoteError detail)]))
    | Resolve response :: later =>
        match Basics.disk st with
        | [] => (Pending Saving, Basics.State later [] (sent ++ [Mkdir dataDir]))
        | Some detail :: more =>
            (Ret tt,
             Basics.State later more
               (sent ++ [Mkdir dataDir; unsaved detail; failed (FsError detail)]))
        | [None] =>
            (Pending Saving,
             Basics.State later [] (sent ++ [Mkdir dataDir; WriteFile (saved_at h) response]))
        | None :: Some detail :: more =>
            (Ret tt,
             Basics.State later more
               (sent ++ [Mkdir dataDir; WriteFile (saved_at h) response;
                         unsaved detail; failed (FsError detail)]))
        | None :: None :: more =>
            (Ret tt,
             Basics.State later more
               (sent ++ [Mkdir dataDir; WriteFile (saved_at h) response;
                         Stdout [VStr ("Response saved to: " +:+ saved_at h)]]
                ++ match Basics.first_content response with
                   | inr content =>
                       [Stdout [VStr "AI Response:"; content];
                        Stdout [VStr ("Full response saved to: " +:+ saved_at h)]]
                   | inl e => [failed e]
                   end))
        end
    end.
Proof.
  rewrite basics_main_catches.
  unfold Basics.attempt, Basics.saveResponseToFile, try_catch, bind,
    Basics.perform, Basics.fs_call, Basics.emit, saved_at.
  destruct st as [remote disk out]. cbn [Basics.remote Basics.disk Basics.out].
  destruct remote as [|[response|detail] later]; [done| |done].
  destruct disk as [|[detail|] [|[detail'|] more]]; cbn;
    rewrite <- ?app_assoc; try done.
  destruct (Basics.first_content response) as [e|content]; cbn;
    by rewrite <- ?app_assoc.
Qed.

(** Reading the content fails on a response, or on [choices], that is
    [undefined] or [null], with the engine's [TypeError]. *)
Lemma first_content_error response :
  nullish response = true
  ∨ (∃ choices, get response "choices" = inr choices ∧ nullish choices = true) →
  ∃ text, Basics.first_content response = inl (TypeError text).
Proof.
  unfold Basics.first_content.
  intros [Hn|(choices & Hc & Hn)].
  - rewrite (get_nullish _ _ Hn). simpl. unfold cannot_read. eauto.
  - rewrite Hc. simpl. destruct choices; try discriminate; simpl;
      unfold cannot_read; eauto.
Qed.

(** ** How the loop runs *)

Lemma requests_app t1 t2 : requests (t1 ++ t2) = requests t1 ++ requests t2.
Proof. apply omap_app. Qed.

Lemma accepted_spec response :
  accepted response = true
  ↔ has_message response = true
    ∧ printable (field (message_of response) "role")
      && printable (field (message_of response) "content") = true.
Proof.
  unfold accepted. rewrite <- andb_assoc. by rewrite andb_true_iff.
Qed.

Section Chat.

(** The lower-casing of the host the chat bot runs on. *)
Variable toLocaleLowerCase : string → string.

Local Abbreviation is_exit := (ChatBot.is_exit toLocaleLowerCase).
Local Abbreviation loop := (ChatBot.loop toLocaleLowerCase).
Local Abbreviation main := (ChatBot.main toLocaleLowerCase).

Lemma loop_nil st : loop [] st = (Pending AwaitingInput, prompted st).
Proof. reflexivity. Qed.

Lemma loop_exit userInput stdin st :
  is_exit userInput = true →
  loop (userInput :: stdin) st
  = (Ret tt, emit (Stdout [VStr "Exiting chat bot..."]) (prompted st)).
Proof. intros Hx. simpl. unfold bind; simpl. rewrite Hx. reflexivity. Qed.

Lemma loop_turn userInput stdin st :
  is_exit userInput = false →
  loop (userInput :: stdin) st
  = match (chatCompletion (told userInput st)).1 with
    | Ret _ => loop stdin (chatCompletion (told userInput st)).2
    | Throw e => (Throw e, (chatCompletion (told userInput st)).2)
    | Pending p => (Pending p, (chatCompletion (told userInput st)).2)
    end.
Proof.
  intros Hx. simpl. unfold bind at 1; simpl. rewrite Hx.
  unfold bind at 1 2, told, prompted. simpl.
  by destruct (chatCompletion _) as [[[]|e|p] st'].
Qed.

Lemma is_exit_spec userInput :
  is_exit userInput = true ↔ toLocaleLowerCase userInput = "exit".
Proof. apply String.eqb_eq. Qed.

Lemma main_loop stdin st :
  main stdin st = loop stdin (emit (Stdout [VStr banner]) st).
Proof. reflexivity. Qed.

Lemma entry_memory (m : M state unit) st :
  chatMemory (entry m st).2 = chatMemory (m st).2.
Proof. unfold entry. by destruct (m st) as [[[]|e|p] st']. Qed.

(** One turn of the loop, by what the service does with it. *)
Ltac one_turn line st :=
  destruct (chatCompletion_cases (told line st))
    as [Hrem|?detail ?later Hrem|?response ?later ?text Hrem Hmsg
       |?response ?later ?role ?content Hrem Hmsg Hrole Hcontent Hshown
       |?response ?later ?role ?content ?shown Hrem Hmsg Hrole Hcontent Hshown Hline];
  cbn [fst snd].

Lemma loop_rejected line stdin st detail later :
  is_exit line = false →
  remote st = Reject detail :: later →
  loop (line :: stdin) st
  = (Throw (RemoteError detail),
     State (chatMemory st ++ [user_turn line]) later
       (out st ++ [Prompt "Enter your message : ";
                   Request model (chatMemory st ++ [user_turn line])])).
Proof.
  intros Hx Hr. rewrite (loop_turn _ _ _ Hx).
  rewrite (chatCompletion_reject (told line st) detail later) by done.
  simpl. unfold answered. simpl. rewrite Hr. simpl. by rewrite <- app_assoc.
Qed.

Lemma loop_unreadable line stdin st response later :
  is_exit line = false →
  remote st = Resolve response :: later →
  has_message response = false →
  ∃ text,
    loop (line :: stdin) st
    = (Throw (TypeError text),
       State (chatMemory st ++ [user_turn line]) later
         (out st ++ [Prompt "Enter your message : ";
                     Request model (chatMemory st ++ [user_turn line])])).
Proof.
  intros Hx Hr Hm. rewrite (loop_turn _ _ _ Hx).
  rewrite (chatCompletion_resolve (told line st) response later) by done.
  assert (answered (told line st)
          = State (chatMemory st ++ [user_turn line]) later
              (out st ++ [Prompt "Enter your message : ";
                          Request model (chatMemory st ++ [user_turn line])])) as ->.
  { unfold answered. simpl. rewrite Hr. simpl. by rewrite <- app_assoc. }
  destruct (first_message_absent _ Hm) as [[text ->]|(message & -> & Hn)].
  - by exists text.
  - rewrite (get_nullish _ "role" Hn). simpl. by eexists.
Qed.

Lemma loop_unprintable line stdin st response later :
  is_exit line = false →
  remote st = Resolve response :: later →
  has_message response = true →
  printable (field (message_of response) "role")
  && printable (field (message_of response) "content") = false →
  loop (line :: stdin) st
  = (Throw unprintable,
     State (chatMemory st
            ++ [user_turn line;
                stored_turn (field (message_of response) "role")
                  (field (message_of response) "content")])
       later
       (out st ++ [Prompt "Enter your message : ";
                   Request model (chatMemory st ++ [user_turn line])])).
Proof.
  intros Hx Hr Hm Hshown. rewrite (loop_turn _ _ _ Hx).
  rewrite (chatCompletion_resolve (told line st) response later) by done.
  destruct (first_message_present _ Hm) as [-> Hn].
  rewrite !(get_defined _ _ Hn). cbn zeta.
  rewrite (assistant_line_fails _ _ Hshown). simpl.
  unfold answered. simpl. by rewrite <- !app_assoc.
Qed.

Lemma loop_accepted line stdin st response later :
  is_exit line = false →
  remote st = Resolve response :: later →
  accepted response = true →
  ∃ shown,
    loop (line :: stdin) st
    = loop stdin
        (State (chatMemory st
                ++ [user_turn line;
                    stored_turn (field (message_of response) "role")
                      (field (message_of response) "content")])
           later
           (out st ++ [Prompt "Enter your message : ";
                       Request model (chatMemory st ++ [user_turn line]);
                       Stdout [VStr shown]])).
Proof.
  intros Hx Hr Hok. rewrite (loop_turn _ _ _ Hx).
  destruct (chatCompletion_accepts (told line st) response later Hr Hok) as [shown ->].
  exists shown. simpl. unfold answered. simpl. by rewrite <- !app_assoc.
Qed.

(** ** The exit word *)

(** C2.  An input whose lower-case form is ["exit"], read by the loop in any
    state, ends the loop: [main] returns and the process exits with status
    0; the history is the one before the input, the service's script is
    untouched and the trace has no completion request that was not there
    before, whatever else the operator or the service had in store. *)
Theorem exit_ends_the_loop (userInput : string) (stdin : list string) (st : state) :
  toLocaleLowerCase userInput = "exit" →
  (loop (userInput :: stdin) st).1 = Ret tt
  ∧ (entry (loop (userInput :: stdin)) st).1 = Exited 0
  ∧ chatMemory (loop (userInput :: stdin) st).2 = chatMemory st
  ∧ remote (loop (userInput :: stdin) st).2 = remote st
  ∧ requests (out (loop (userInput :: stdin) st).2) = requests (out st).
Proof.
  intros Hx%is_exit_spec. unfold entry.
  rewrite (loop_exit _ stdin st Hx). simpl.
  repeat split; try reflexivity.
  rewrite !requests_app. simpl. by rewrite !app_nil_r.
Qed.

(** ** Turns that are answered *)

Lemma dialogue_length inputs turns :
  dialogue inputs turns → length turns = 2 * length inputs.
Proof. induction 1; simpl; lia. Qed.

(** After N lines that are not exit words, each answered by a response that
    is accepted, the loop goes on with the remaining lines, from a state
    whose history has grown by the 2N turns and whose service script has
    lost the N responses. *)
Lemma loop_accepted_turns before : ∀ responses rest later st,
  length responses = length before →
  Forall (λ line, is_exit line = false) before →
  Forall (λ response, accepted response = true) responses →
  remote st = (Resolve <$> responses) ++ later →
  ∃ st',
    loop (before ++ rest) st = loop rest st'
    ∧ remote st' = later
    ∧ chatMemory st `prefix_of` chatMemory st'
    ∧ length (chatMemory st') = length (chatMemory st) + 2 * length before
    ∧ length (requests (out st')) = length (requests (out st)) + length before
    ∧ ∃ turns,
        chatMemory st' = chatMemory st ++ turns
        ∧ (Forall (λ response, well_formed response = true) responses →
           dialogue before turns).
Proof.
  induction before as [|line before IH]; intros [|response responses] rest later st
    Hlen Hb Hr Hrem; try discriminate.
  { exists st. split; [done|]. split; [exact Hrem|]. split; [done|].
    split; [simpl; lia|]. split; [simpl; lia|].
    exists []. rewrite app_nil_r. split; [done|]. intros _. constructor. }
  apply Forall_cons in Hb as [Hx Hb]. apply Forall_cons in Hr as [Hok Hr].
  change ((line :: before) ++ rest) with (line :: (before ++ rest)).
  destruct (loop_accepted line (before ++ rest) st response _ Hx Hrem Hok)
    as [shown ->].
  match goal with |- context [loop (before ++ rest) ?s] => set (st1 := s) end.
  destruct (IH responses rest later st1)
    as (st' & Hgo & Hrem' & Hpre & Hlen' & Hreq & turns & Hmem & Hdia);
    [simpl in Hlen; lia | done | done | done |].
  exists st'. split; [done|]. split; [done|]. split; [|split; [|split]].
  - etrans; [|exact Hpre]. subst st1. simpl. by eexists.
  - rewrite Hlen'. subst st1. simpl. rewrite !length_app. simpl. lia.
  - rewrite Hreq. subst st1. simpl. rewrite !requests_app, !length_app. simpl. lia.
  - eexists. split.
    + rewrite Hmem. subst st1. simpl. rewrite <- app_assoc. reflexivity.
    + intros Hwf. apply Forall_cons in Hwf as [Hwf1 Hwf].
      simpl. constructor; [done | | by apply Hdia].
      unfold role_of. by rewrite (proj2 (well_formed_accepted _ Hwf1)).
Qed.


(** ** What a run does to the history and to the trace *)

Lemma chatCompletion_grows st :
  chatMemory st `prefix_of` chatMemory (chatCompletion st).2.
Proof.
  destruct (chatCompletion_history st) as [->|[turn ->]]; [done|by eexists].
Qed.

Lemma loop_grows stdin : ∀ st, chatMemory st `prefix_of` chatMemory (loop stdin st).2.
Proof.
  induction stdin as [|userInput stdin IH]; intros st; [done|].
  destruct (is_exit userInput) eqn:Hx.
  - by rewrite (loop_exit _ _ _ Hx).
  - rewrite (loop_turn _ _ _ Hx).
    assert (chatMemory st `prefix_of` chatMemory (chatCompletion (told userInput st)).2)
      as Hpre.
    { etrans; [|apply chatCompletion_grows]. by eexists. }
    destruct (chatCompletion (told userInput st)) as [[[]|e|p] st']; simpl in *;
      [etrans; [exact Hpre | apply IH] | done | done].
Qed.

(** The requests a run adds to the trace, counted from 0: the k-th one
    carries the history the run started from, the 2k turns added by the
    exchanges before it, and the user turn it is made for. *)
Lemma loop_requests stdin : ∀ st,
  ∃ new,
    requests (out (loop stdin st).2) = requests (out st) ++ new
    ∧ ∀ k messages, new !! k = Some messages →
        messages = take (length (chatMemory st) + 2 * k + 1) (chatMemory (loop stdin st).2).
Proof.
  induction stdin as [|userInput stdin IH]; intros st.
  { exists []. rewrite loop_nil. simpl. rewrite requests_app, !app_nil_r. done. }
  destruct (is_exit userInput) eqn:Hx.
  { exists []. rewrite (loop_exit _ _ _ Hx). simpl.
    rewrite !requests_app, !app_nil_r. done. }
  rewrite (loop_turn _ _ _ Hx).
  assert (∀ n (l : list jsval), n = length (chatMemory st) + 1 →
            chatMemory st ++ [user_turn userInput]
            = take n ((chatMemory st ++ [user_turn userInput]) ++ l)) as Hfirst.
  { intros n l ->. rewrite take_app_length'; [done|]. rewrite length_app. simpl. lia. }
  assert (∀ st1 : state,
            (∃ l, chatMemory st1 = (chatMemory st ++ [user_turn userInput]) ++ l) →
            requests (out st1) = requests (out st) ++ [chatMemory st ++ [user_turn userInput]] →
            ∃ new,
              requests (out st1) = requests (out st) ++ new
              ∧ ∀ k messages, new !! k = Some messages →
                  messages = take (length (chatMemory st) + 2 * k + 1) (chatMemory st1))
    as Hstop.
  { intros st1 [l Hl] Hreq. exists [chatMemory st ++ [user_turn userInput]].
    split; [done|]. intros [|k] messages Hk; simpl in Hk; [|done]. simplify_eq.
    rewrite Hl. apply Hfirst. lia. }
  one_turn userInput st.
  - apply Hstop; [exists []; by rewrite app_nil_r|].
    simpl. rewrite !requests_app. simpl. by rewrite !app_nil_r.
  - apply Hstop; [exists []; by rewrite app_nil_r|].
    simpl. rewrite !requests_app. simpl. by rewrite !app_nil_r.
  - apply Hstop; [exists []; by rewrite app_nil_r|].
    simpl. rewrite !requests_app. simpl. by rewrite !app_nil_r.
  - apply Hstop; [by eexists|].
    simpl. rewrite !requests_app. simpl. by rewrite !app_nil_r.
  - match goal with |- context [loop stdin ?s] => set (st2 := s) in * end.
    destruct (IH st2) as (new & Hreq & Hnew).
    exists ((chatMemory st ++ [user_turn userInput]) :: new). split.
    + rewrite Hreq. subst st2. simpl. rewrite !requests_app. simpl.
      rewrite !app_nil_r, <- app_assoc. done.
    + intros [|k] messages Hk; simpl in Hk.
      * simplify_eq. destruct (loop_grows stdin st2) as [l Hl].
        rewrite Hl. subst st2. simpl.
        rewrite <- (app_assoc _ _ l). apply Hfirst. lia.
      * rewrite (Hnew k messages Hk). f_equal. subst st2. simpl.
        rewrite !length_app. simpl. lia.
Qed.

Lemma loop_trace_grows stdin : ∀ st, out st `prefix_of` out (loop stdin st).2.
Proof.
  induction stdin as [|userInput stdin IH]; intros st.
  { rewrite loop_nil. by eexists. }
  destruct (is_exit userInput) eqn:Hx.
  { rewrite (loop_exit _ _ _ Hx). simpl. rewrite <- app_assoc. by eexists. }
  rewrite (loop_turn _ _ _ Hx).
  destruct (chatCompletion_trace (told userInput st)) as (later & Hout & _).
  assert (out st `prefix_of` out (chatCompletion (told userInput st)).2) as Hpre.
  { rewrite Hout. simpl. rewrite <- app_assoc. by eexists. }
  destruct (chatCompletion (told userInput st)) as [[[]|e|p] st']; simpl in *;
    [etrans; [exact Hpre | apply IH] | done | done].
Qed.

(** A run that ends with the rejection of a call ends right after the
    request, and that request carries the history the run ends with. *)
Lemma loop_remote_error stdin : ∀ st detail,
  (loop stdin st).1 = Throw (RemoteError detail) →
  ∃ before,
    out (loop stdin st).2 = before ++ [Request model (chatMemory (loop stdin st).2)].
Proof.
  induction stdin as [|userInput stdin IH]; intros st detail; [done|].
  destruct (is_exit userInput) eqn:Hx.
  { by rewrite (loop_exit _ _ _ Hx). }
  rewrite (loop_turn _ _ _ Hx). one_turn userInput st; try done.
  - intros _. by eexists.
  - apply IH.
Qed.

(** ** Single steps *)

(** C3.  Whatever the state [chatCompletion] is called in, the one request
    it makes carries [chatMemory] as it is at that moment, whole and in
    order; and in a run of the program the k-th request (from 0) is the first
    2k + 2 turns of the history the run ends with: the system turn, k
    exchanges, the new user turn. *)
Theorem request_carries_history :
  (∀ st, ∃ later,
     out (chatCompletion st).2 = out st ++ Request model (chatMemory st) :: later
     ∧ requests later = [])
  ∧ (∀ stdin remote k messages,
       requests (out (main stdin (boot remote)).2) !! k = Some messages →
       messages = take (2 * k + 2) (chatMemory (main stdin (boot remote)).2)).
Proof.
  split; [apply chatCompletion_trace|].
  intros stdin remote k messages. rewrite main_loop.
  destruct (loop_requests stdin (emit (Stdout [VStr banner]) (boot remote)))
    as (new & -> & Hnew).
  simpl. intros Hk. rewrite (Hnew _ _ Hk). simpl. f_equal. lia.
Qed.


(** C5.  A rejected completion call makes [chatCompletion] throw the
    [RemoteError] and leaves the history as it was when the call was made.
    Made for a line read by the loop in any state, it ends the process:
    the top-level handler prints the error and exits with status 1, and the
    history is the one the call was made with, the user turn of the line
    last, no assistant turn added.  So it is after any number of turns that
    were answered; and whenever [main] ends with a [RemoteError], the status
    is 1 and the history is still the one the last request carried. *)
Theorem remote_error_is_fatal :
  (∀ st detail later,
     remote st = Reject detail :: later →
     (chatCompletion st).1 = Throw (RemoteError detail)
     ∧ chatMemory (chatCompletion st).2 = chatMemory st)
  ∧ (∀ line stdin st detail later,
       is_exit line = false →
       remote st = Reject detail :: later →
       entry (loop (line :: stdin)) st
       = (Exited 1,
          State (chatMemory st ++ [user_turn line]) later
            (out st ++ [Prompt "Enter your message : ";
                        Request model (chatMemory st ++ [user_turn line]);
                        Stderr "Unexpected error in chat bot:" (RemoteError detail)])))
  ∧ (∀ before responses line after detail later,
       length responses = length before →
       Forall (λ line, is_exit line = false) before →
       Forall (λ response, accepted response = true) responses →
       is_exit line = false →
       exit_status
         (entry (main (before ++ line :: after))
            (boot ((Resolve <$> responses) ++ Reject detail :: later))).1
       = Some 1%Z
       ∧ length (chatMemory
                   (entry (main (before ++ line :: after))
                      (boot ((Resolve <$> responses) ++ Reject detail :: later))).2)
         = 2 * length before + 2
       ∧ last (chatMemory
                 (entry (main (before ++ line :: after))
                    (boot ((Resolve <$> responses) ++ Reject detail :: later))).2)
         = Some (user_turn line)
       ∧ last (requests
                 (out (entry (main (before ++ line :: after))
                         (boot ((Resolve <$> responses) ++ Reject detail :: later))).2))
         = Some (chatMemory
                   (entry (main (before ++ line :: after))
                      (boot ((Resolve <$> responses) ++ Reject detail :: later))).2))
  ∧ (∀ stdin st detail,
       (main stdin st).1 = Throw (RemoteError detail) →
       exit_status (entry (main stdin) st).1 = Some 1%Z
       ∧ chatMemory (entry (main stdin) st).2 = chatMemory (main stdin st).2
       ∧ ∃ before,
           out (main stdin st).2
           = before ++ [Request model (chatMemory (main stdin st).2)]).
Proof.
  assert (∀ line stdin st detail later,
            is_exit line = false →
            remote st = Reject detail :: later →
            entry (loop (line :: stdin)) st
            = (Exited 1,
               State (chatMemory st ++ [user_turn line]) later
                 (out st ++ [Prompt "Enter your message : ";
                             Request model (chatMemory st ++ [user_turn line]);
                             Stderr "Unexpected error in chat bot:" (RemoteError detail)])))
    as Hfatal.
  { intros line stdin st detail later Hx Hr. unfold entry.
    rewrite (loop_rejected _ _ _ _ _ Hx Hr). simpl. unfold emit. simpl.
    by rewrite <- app_assoc. }
  split; [|split; [exact Hfatal|split]].
  - intros st detail later Hr. by rewrite (chatCompletion_reject _ _ _ Hr).
  - intros before responses line after detail later Hlen Hb Hok Hx.
    destruct (loop_accepted_turns before responses (line :: after)
                (Reject detail :: later)
                (emit (Stdout [VStr banner])
                   (boot ((Resolve <$> responses) ++ Reject detail :: later))))
      as (st' & Hgo & Hrem & _ & Hlen' & _); [done..|].
    assert (entry (main (before ++ line :: after))
              (boot ((Resolve <$> responses) ++ Reject detail :: later))
            = entry (loop (line :: after)) st') as ->.
    { unfold entry. by rewrite main_loop, Hgo. }
    rewrite (Hfatal _ _ _ _ _ Hx Hrem). simpl.
    rewrite !requests_app. simpl. rewrite !last_snoc, length_app, Hlen'. simpl.
    repeat split. lia.
  - intros stdin st detail Hfail. rewrite entry_memory. unfold entry.
    pose proof (loop_remote_error stdin (emit (Stdout [VStr banner]) st) detail) as Hlast.
    rewrite <- main_loop in Hlast.
    destruct (main stdin st) as [[[]|e|p] st']; simpl in *; try done.
    repeat split. by apply Hlast.
Qed.

(** C9.  A line whose lower-case form is not ["exit"] (the empty line is
    one) becomes a user turn with the line as its content, unchanged, at the
    end of the history, and right after the prompt the completion request is
    made with the history that ends with it. *)
Theorem input_is_forwarded (userInput : string) (stdin : list string) (st : state) :
  toLocaleLowerCase userInput ≠ "exit" →
  get (user_turn userInput) "role" = inr (VStr "user")
  ∧ get (user_turn userInput) "content" = inr (VStr userInput)
  ∧ (chatMemory st ++ [user_turn userInput])
      `prefix_of` chatMemory (loop (userInput :: stdin) st).2
  ∧ ∃ later,
      out (loop (userInput :: stdin) st).2
      = out st ++ Prompt "Enter your message : "
          :: Request model (chatMemory st ++ [user_turn userInput]) :: later.
Proof.
  intros Hx. assert (is_exit userInput = false) as Hx'.
  { destruct (is_exit userInput) eqn:E; [|done]. by apply is_exit_spec in E. }
  split; [done|]. split; [done|].
  rewrite (loop_turn _ _ _ Hx').
  destruct (chatCompletion_trace (told userInput st)) as (later & Hout & _).
  pose proof (chatCompletion_grows (told userInput st)) as Hmem.
  destruct (chatCompletion (told userInput st)) as [[[]|e|p] st'] eqn:Hrun; simpl in *.
  - split.
    + etrans; [exact Hmem|apply loop_grows].
    + destruct (loop_trace_grows stdin st') as [more ->].
      rewrite Hout. rewrite <- !app_assoc. simpl. by eexists.
  - split; [done|]. rewrite Hout, <- app_assoc. by eexists.
  - split; [done|]. rewrite Hout, <- app_assoc. by eexists.
Qed.

(** ** Start-up *)

(** C6.  Without [GROQ_API_KEY], in the process environment and in the
    [.env] file, both modules throw while they load: the process ends with
    status 1 and has done nothing, no prompt, no request, no file. *)
Theorem missing_key_stops_startup
    (env file : gmap string string) (stdin : list string) (h : Basics.host)
    (remote : list reply) (disk : list (option string)) :
  env !! "GROQ_API_KEY" = None →
  file !! "GROQ_API_KEY" = None →
  ChatBot.program toLocaleLowerCase env file stdin remote
    = (Uncaught ConfigurationError, ChatBot.State [] remote [])
  ∧ exit_status (ChatBot.program toLocaleLowerCase env file stdin remote).1 = Some 1%Z
  ∧ Basics.program env file h remote disk
    = (Uncaught ConfigurationError, Basics.State remote disk [])
  ∧ exit_status (Basics.program env file h remote disk).1 = Some 1%Z.
Proof.
  intros Henv Hfile.
  assert (missing_key (dotenv_config env file) = true) as Hmissing.
  { unfold missing_key, dotenv_config.
    by rewrite (proj2 (lookup_union_None env file "GROQ_API_KEY") (conj Henv Hfile)). }
  unfold ChatBot.program, Basics.program. rewrite Hmissing. done.
Qed.

Lemma missing_key_effective env file :
  missing_key (dotenv_config env file) = true
  ↔ effective_key env file = None ∨ effective_key env file = Some "".
Proof.
  unfold missing_key, dotenv_config, effective_key. rewrite lookup_union.
  destruct (env !! "GROQ_API_KEY") as [value|], (file !! "GROQ_API_KEY") as [value'|];
    simpl; rewrite ?String.eqb_eq; split;
    first [ by intros -> ; right | by intros [|[= ->]] | by left | by intros ->; right
          | intros _; by left | done ].
Qed.

(** X2.  Both programs refuse to start exactly when [GROQ_API_KEY], taken
    from the process environment or else from the [.env] file, is absent or
    empty.  A variable that is set but empty is not replaced by the file's. *)
Theorem startup_needs_nonempty_key
    (env file : gmap string string) (stdin : list string) (h : Basics.host)
    (remote : list reply) (disk : list (option string)) :
  ((ChatBot.program toLocaleLowerCase env file stdin remote).1
   = Uncaught ConfigurationError
   ↔ effective_key env file = None ∨ effective_key env file = Some "")
  ∧ ((Basics.program env file h remote disk).1 = Uncaught ConfigurationError
     ↔ effective_key env file = None ∨ effective_key env file = Some "").
Proof.
  rewrite <- missing_key_effective. unfold ChatBot.program, Basics.program.
  destruct (missing_key (dotenv_config env file)); split; split; try done.
  - unfold entry. by destruct (main stdin (boot remote)) as [[[]|e|p] st'].
  - unfold Basics.entry.
    by destruct (Basics.main h (Basics.boot remote disk)) as [[[]|e|p] st'].
Qed.

(** ** Errors at the top level *)

(** C7, as the code has it.  What goes wrong is printed, in both programs.
    In the chat bot, for a line read in any state: a rejected completion
    call, a response with nothing at [choices[0].message], a role or content
    that cannot be shown, each ends the run with the error printed by the
    top-level handler and status 1.  In the basics demo: a rejected call, a
    failing [mkdir], a failing [writeFile], a response whose content cannot
    be read, each is printed by [main]'s own [catch], a failure to save by
    [saveResponseToFile] before that; [main] then returns and the process
    ends with status 0. *)
Theorem errors_are_reported :
  (∀ line stdin st detail later,
     is_exit line = false →
     remote st = Reject detail :: later →
     entry (loop (line :: stdin)) st
     = (Exited 1,
        State (chatMemory st ++ [user_turn line]) later
          (out st ++ [Prompt "Enter your message : ";
                      Request model (chatMemory st ++ [user_turn line]);
                      Stderr "Unexpected error in chat bot:" (RemoteError detail)])))
  ∧ (∀ line stdin st response later,
       is_exit line = false →
       remote st = Resolve response :: later →
       has_message response = false →
       ∃ text,
         entry (loop (line :: stdin)) st
         = (Exited 1,
            State (chatMemory st ++ [user_turn line]) later
              (out st ++ [Prompt "Enter your message : ";
                          Request model (chatMemory st ++ [user_turn line]);
                          Stderr "Unexpected error in chat bot:" (TypeError text)])))
  ∧ (∀ line stdin st response later,
       is_exit line = false →
       remote st = Resolve response :: later →
       has_message response = true →
       printable (field (message_of response) "role")
       && printable (field (message_of response) "content") = false →
       entry (loop (line :: stdin)) st
       = (Exited 1,
          State (chatMemory st
                 ++ [user_turn line;
                     stored_turn (field (message_of response) "role")
                       (field (message_of response) "content")])
            later
            (out st ++ [Prompt "Enter your message : ";
                        Request model (chatMemory st ++ [user_turn line]);
                        Stderr "Unexpected error in chat bot:"
                          (TypeError "Cannot convert object to primitive value")])))
  ∧ (∀ h st detail later,
       Basics.remote st = Reject detail :: later →
       Basics.entry (Basics.main h) st
       = (Exited 0,
          Basics.State later (Basics.disk st)
            (Basics.out st
             ++ [Request model Basics.conversation;
                 Stderr "Error in main function:" (RemoteError detail)])))
  ∧ (∀ h st response later detail more,
       Basics.remote st = Resolve response :: later →
       Basics.disk st = Some detail :: more →
       Basics.entry (Basics.main h) st
       = (Exited 0,
          Basics.State later more
            (Basics.out st
             ++ [Request model Basics.conversation;
                 Mkdir (Basics.join h (Basics.cwd h) "data");
                 Stderr "Error saving file:" (FsError detail);
                 Stderr "Error in main function:" (FsError detail)])))
  ∧ (∀ h st response later detail more,
       Basics.remote st = Resolve response :: later →
       Basics.disk st = None :: Some detail :: more →
       Basics.entry (Basics.main h) st
       = (Exited 0,
          Basics.State later more
            (Basics.out st
             ++ [Request model Basics.conversation;
                 Mkdir (Basics.join h (Basics.cwd h) "data");
                 WriteFile (saved_at h) response;
                 Stderr "Error saving file:" (FsError detail);
                 Stderr "Error in main function:" (FsError detail)])))
  ∧ (∀ h st response later more,
       Basics.remote st = Resolve response :: later →
       Basics.disk st = None :: None :: more →
       nullish response = true
       ∨ (∃ choices, get response "choices" = inr choices ∧ nullish choices = true) →
       ∃ text,
         Basics.entry (Basics.main h) st
         = (Exited 0,
            Basics.State later more
              (Basics.out st
               ++ [Request model Basics.conversation;
                   Mkdir (Basics.join h (Basics.cwd h) "data");
                   WriteFile (saved_at h) response;
                   Stdout [VStr ("Response saved to: " +:+ saved_at h)];
                   Stderr "Error in main function:" (TypeError text)]))).
Proof.
  split; [|split; [|split; [|split; [|split; [|split]]]]].
  - intros line stdin st detail later Hx Hr. unfold entry.
    rewrite (loop_rejected _ _ _ _ _ Hx Hr). simpl. unfold emit. simpl.
    by rewrite <- app_assoc.
  - intros line stdin st response later Hx Hr Hm.
    destruct (loop_unreadable _ stdin _ _ _ Hx Hr Hm) as [text Hrun].
    exists text. unfold entry. rewrite Hrun. simpl. unfold emit. simpl.
    by rewrite <- app_assoc.
  - intros line stdin st response later Hx Hr Hm Hshown. unfold entry.
    rewrite (loop_unprintable _ _ _ _ _ Hx Hr Hm Hshown). simpl. unfold emit. simpl.
    by rewrite <- app_assoc.
  - intros h st detail later Hr. unfold Basics.entry.
    rewrite basics_main_run, Hr. cbn zeta. by rewrite <- app_assoc.
  - intros h st response later detail more Hr Hd. unfold Basics.entry.
    rewrite basics_main_run, Hr, Hd. cbn zeta. by rewrite <- app_assoc.
  - intros h st response later detail more Hr Hd. unfold Basics.entry.
    rewrite basics_main_run, Hr, Hd. cbn zeta. by rewrite <- app_assoc.
  - intros h st response later more Hr Hd Hbad.
    destruct (first_content_error _ Hbad) as [text Hread].
    exists text. unfold Basics.entry.
    rewrite basics_main_run, Hr, Hd, Hread. cbn zeta. by rewrite <- !app_assoc.
Qed.

(** ** Further properties of the chat bot *)

(** The turns the service must have answered for the loop to return. *)
Lemma loop_returns stdin : ∀ st,
  (loop stdin st).1 = Ret tt
  ↔ ∃ before word after responses later,
      stdin = before ++ word :: after
      ∧ Forall (λ line, is_exit line = false) before
      ∧ is_exit word = true
      ∧ remote st = (Resolve <$> responses) ++ later
      ∧ length responses = length before
      ∧ Forall (λ response, accepted response = true) responses.
Proof.
  intros st. split.
  - revert st. induction stdin as [|userInput stdin IH]; intros st; [done|].
    destruct (is_exit userInput) eqn:Hx.
    { intros _. exists [], userInput, stdin, [], (remote st). by repeat split. }
    rewrite (loop_turn _ _ _ Hx). one_turn userInput st; try done.
    intros (before & word & after & responses & later' & -> & Hb & Hw & Hrest & Hl & Hr)%IH.
    simpl in Hrest. subst.
    exists (userInput :: before), word, after, (response :: responses), later'.
    repeat split; try done.
    + by constructor.
    + simpl. lia.
    + constructor; [|done]. by apply accepted_spec.
  - intros (before & word & after & responses & later & -> & Hb & Hw & Hrem & Hl & Hr).
    destruct (loop_accepted_turns before responses (word :: after) later st)
      as (st' & -> & _); [done..|].
    by rewrite (loop_exit _ _ _ Hw).
Qed.

(** X3.  The chat bot ends with status 0 exactly when the operator types an
    exit word and every line before it got a response that was accepted: a
    message at [choices[0]] whose role and content can be shown; what is
    typed after the exit word plays no part. *)
Theorem chat_exits_normally_iff (stdin : list string) (remote : list reply) :
  (entry (main stdin) (boot remote)).1 = Exited 0
  ↔ ∃ before word after responses later,
      stdin = before ++ word :: after
      ∧ Forall (λ line, is_exit line = false) before
      ∧ is_exit word = true
      ∧ remote = (Resolve <$> responses) ++ later
      ∧ length responses = length before
      ∧ Forall (λ response, accepted response = true) responses.
Proof.
  rewrite <- (loop_returns stdin (emit (Stdout [VStr banner]) (boot remote))).
  rewrite <- main_loop. unfold entry.
  destruct (main stdin (boot remote)) as [[[]|e|p] st']; simpl; split; done.
Qed.

(** X4.  Turns that are answered compose: after N lines that are not exit
    words, each answered by a response that is accepted, the loop goes on
    with the remaining lines as if started afresh, from a state whose
    history has grown by 2N turns and whose service script has lost the N
    responses used. *)
Theorem loop_continues (before : list string) (responses : list jsval) :
  length responses = length before →
  Forall (λ line, is_exit line = false) before →
  Forall (λ response, accepted response = true) responses →
  ∀ rest later st,
    remote st = (Resolve <$> responses) ++ later →
    ∃ st',
      loop (before ++ rest) st = loop rest st'
      ∧ remote st' = later
      ∧ chatMemory st `prefix_of` chatMemory st'
      ∧ length (chatMemory st') = length (chatMemory st) + 2 * length before.
Proof.
  intros Hlen Hb Hr rest later st Hrem.
  destruct (loop_accepted_turns before responses rest later st)
    as (st' & Hgo & Hrem' & Hpre & Hlen' & _); [done..|].
  by exists st'.
Qed.

Lemma loop_parity stdin : ∀ st,
  match (loop stdin st).1 with
  | Ret _ | Pending AwaitingInput =>
      length (chatMemory (loop stdin st).2) + 2 * length (requests (out st))
      = length (chatMemory st) + 2 * length (requests (out (loop stdin st).2))
  | Pending Completing =>
      length (chatMemory (loop stdin st).2) + 2 * length (requests (out st)) + 1
      = length (chatMemory st) + 2 * length (requests (out (loop stdin st).2))
  | Throw e =>
      length (requests (out st)) < length (requests (out (loop stdin st).2))
      ∧ (length (chatMemory (loop stdin st).2) + 2 * length (requests (out st)) + 1
         = length (chatMemory st) + 2 * length (requests (out (loop stdin st).2))
         ∨ (e = unprintable
            ∧ length (chatMemory (loop stdin st).2) + 2 * length (requests (out st))
              = length (chatMemory st) + 2 * length (requests (out (loop stdin st).2))))
  | Pending Saving => False
  end.
Proof.
  induction stdin as [|userInput stdin IH]; intros st.
  { rewrite loop_nil. simpl. rewrite requests_app. simpl. rewrite app_nil_r. lia. }
  destruct (is_exit userInput) eqn:Hx.
  { rewrite (loop_exit _ _ _ Hx). simpl. rewrite !requests_app. simpl.
    rewrite !app_nil_r. lia. }
  rewrite (loop_turn _ _ _ Hx). one_turn userInput st.
  - simpl. rewrite !requests_app, !length_app. simpl. lia.
  - simpl. rewrite !requests_app, !length_app. simpl. split; [lia|left; lia].
  - simpl. rewrite !requests_app, !length_app. simpl. split; [lia|left; lia].
  - simpl. rewrite !requests_app, !length_app. simpl.
    split; [lia|right; split; [done|lia]].
  - match goal with |- context [loop stdin ?s] => set (st1 := s) end.
    specialize (IH st1).
    assert (length (chatMemory st1) = length (chatMemory st) + 2
            ∧ length (requests (out st1)) = length (requests (out st)) + 1) as [Hm Hq].
    { subst st1. simpl. rewrite !requests_app, !length_app. simpl. lia. }
    clearbody st1.
    destruct (loop stdin st1) as [[[]|e|[]] st2]; simpl in *;
      first [lia | destruct IH as [Hmore [IH|[-> IH]]];
                   (split; [lia|]); [left; lia | right; split; [done|lia]]].
Qed.

(** X5.  In every run of the chat bot the history and the trace stay in
    step.  With n completion requests made, the history has 2n + 1 turns
    when the loop is at its prompt or has returned, and 2n turns, n at least
    1, when a call is in flight.  A run that has ended with an exception has
    made a request and has 2n turns, or 2n + 1 when the exception is the one
    of a reply that was stored and could not be shown. *)
Theorem history_matches_requests (stdin : list string) (remote : list reply) :
  match (main stdin (boot remote)).1 with
  | Ret _ | Pending AwaitingInput =>
      length (chatMemory (main stdin (boot remote)).2)
      = 2 * length (requests (out (main stdin (boot remote)).2)) + 1
  | Pending Completing =>
      length (chatMemory (main stdin (boot remote)).2)
      = 2 * length (requests (out (main stdin (boot remote)).2))
      ∧ (1 ≤ length (requests (out (main stdin (boot remote)).2)))%nat
  | Throw e =>
      (1 ≤ length (requests (out (main stdin (boot remote)).2)))%nat
      ∧ (length (chatMemory (main stdin (boot remote)).2)
         = 2 * length (requests (out (main stdin (boot remote)).2))
         ∨ (e = unprintable
            ∧ length (chatMemory (main stdin (boot remote)).2)
              = 2 * length (requests (out (main stdin (boot remote)).2)) + 1))
  | Pending Saving => False
  end.
Proof.
  rewrite main_loop.
  pose proof (loop_parity stdin (emit (Stdout [VStr banner]) (boot remote))) as H.
  pose proof (prefix_length _ _
                (loop_grows stdin (emit (Stdout [VStr banner]) (boot remote)))) as Hlen.
  destruct (loop stdin (emit (Stdout [VStr banner]) (boot remote))) as [[[]|e|[]] st'];
    simpl in *; try lia.
  destruct H as [Hmore [H|[-> H]]]; (split; [lia|]); [left; lia|right; split; [done|lia]].
Qed.

Lemma loop_two_fields stdin : ∀ st,
  Forall two_fields (chatMemory st) →
  Forall two_fields (chatMemory (loop stdin st).2).
Proof.
  assert (∀ role content, two_fields (stored_turn role content)) as Hturn.
  { intros role content. eexists. split; [reflexivity|].
    rewrite dom_insert_L, dom_singleton_L. set_solver. }
  induction stdin as [|userInput stdin IH]; intros st Hst; [done|].
  destruct (is_exit userInput) eqn:Hx.
  { by rewrite (loop_exit _ _ _ Hx). }
  rewrite (loop_turn _ _ _ Hx).
  assert (Forall two_fields (chatMemory (told userInput st))) as Htold.
  { simpl. apply Forall_app. split; [done|]. constructor; [|done].
    apply (Hturn (VStr "user") (VStr userInput)). }
  one_turn userInput st; try done.
  - simpl. apply Forall_app. split; [done|]. by constructor.
  - apply IH. simpl. apply Forall_app. split; [done|]. by constructor.
Qed.

(** X6.  Every turn of the history, at any point of any run, is an object
    with the two fields [role] and [content] and no other. *)
Theorem history_turns_have_two_fields (stdin : list string) (remote : list reply) :
  Forall two_fields (chatMemory (entry (main stdin) (boot remote)).2).
Proof.
  rewrite entry_memory, main_loop. apply loop_two_fields. simpl.
  constructor; [|done]. eexists. split; [reflexivity|].
  rewrite dom_insert_L, dom_singleton_L. set_solver.
Qed.

Lemma loop_user_turns stdin : ∀ st i turn,
  chatMemory (loop stdin st).2 !! (length (chatMemory st) + 2 * i) = Some turn →
  ∃ line, stdin !! i = Some line ∧ is_exit line = false ∧ turn = user_turn line.
Proof.
  induction stdin as [|userInput stdin IH]; intros st i turn.
  { rewrite loop_nil. simpl. intros H%lookup_lt_Some. lia. }
  destruct (is_exit userInput) eqn:Hx.
  { rewrite (loop_exit _ _ _ Hx). simpl. intros H%lookup_lt_Some. lia. }
  rewrite (loop_turn _ _ _ Hx).
  assert (∀ (l : list jsval) n, n = length (chatMemory st) →
            ((chatMemory st ++ [user_turn userInput]) ++ l) !! n
            = Some (user_turn userInput)) as Hhere.
  { intros l n ->. rewrite <- app_assoc, lookup_app_r by lia.
    by rewrite Nat.sub_diag. }
  assert (∀ (l : list jsval) n, (length l ≤ 1)%nat → length (chatMemory st) + 1 < n →
            ((chatMemory st ++ [user_turn userInput]) ++ l) !! n = None) as Hbeyond.
  { intros l n Hl Hn. apply lookup_ge_None. rewrite !length_app. simpl. lia. }
  assert (∀ l : list jsval, (length l ≤ 1)%nat →
            ((chatMemory st ++ [user_turn userInput]) ++ l)
              !! (length (chatMemory st) + 2 * i) = Some turn →
            ∃ line, (userInput :: stdin) !! i = Some line
                    ∧ is_exit line = false ∧ turn = user_turn line) as Hstop.
  { intros l Hl. destruct i as [|i'].
    - rewrite Hhere by lia. intros [= <-]. by exists userInput.
    - by rewrite Hbeyond by lia. }
  one_turn userInput st.
  - cbn [called emit chatMemory told]. rewrite <- (app_nil_r (_ ++ _)).
    apply Hstop. simpl. lia.
  - cbn [answered chatMemory told]. rewrite <- (app_nil_r (_ ++ _)).
    apply Hstop. simpl. lia.
  - cbn [answered chatMemory told]. rewrite <- (app_nil_r (_ ++ _)).
    apply Hstop. simpl. lia.
  - cbn [chatMemory told]. apply Hstop. simpl. lia.
  - match goal with |- context [loop stdin ?s] => set (st1 := s) end.
    destruct i as [|i'].
    + destruct (loop_grows stdin st1) as [l ->]. subst st1. cbn [chatMemory told].
      rewrite <- (app_assoc _ _ l), Hhere by lia. intros [= <-]. by exists userInput.
    + intros Hlook. destruct (IH st1 i' turn) as (line & Htyped & Hexit & ->).
      { rewrite <- Hlook. f_equal. subst st1. cbn [chatMemory told].
        rewrite !length_app. simpl. lia. }
      by exists line.
Qed.

(** X7.  Whatever the service answers, the turns at the odd positions of the
    history are the user turns of the lines typed, in the order typed: turn
    2i + 1 holds line i, unchanged, and that line is not an exit word. *)
Theorem user_turns_follow_stdin (stdin : list string) (remote : list reply)
    (i : nat) (turn : jsval) :
  chatMemory (main stdin (boot remote)).2 !! (2 * i + 1) = Some turn →
  ∃ line, stdin !! i = Some line ∧ is_exit line = false ∧ turn = user_turn line.
Proof.
  rewrite main_loop. intros H.
  apply (loop_user_turns stdin (emit (Stdout [VStr banner]) (boot remote)) i turn).
  rewrite <- H. f_equal. simpl. lia.
Qed.



End Chat.

(** ** The properties on a sample host *)

Lemma exit_ends_the_loop_witness :
  latin_lower "ExIt" = "exit"
  ∧ (loop latin_lower ["ExIt"; "hello"] (boot [Resolve (answer "hi")])).1 = Ret tt
  ∧ remote (loop latin_lower ["ExIt"; "hello"] (boot [Resolve (answer "hi")])).2
    = [Resolve (answer "hi")].
Proof.
  split; [reflexivity|].
  pose proof (exit_ends_the_loop latin_lower "ExIt" ["hello"]
                (boot [Resolve (answer "hi")]) eq_refl) as (H1 & _ & _ & H4 & _).
  split; [exact H1 | exact H4].
Defined.


Lemma request_carries_history_witness :
  [system_turn; user_turn "a"; assistant_turn "b"; user_turn "c"]
  = take 4 (chatMemory
              (main latin_lower ["a"; "c"]
                 (boot [Resolve (answer "b"); Resolve (answer "d")])).2).
Proof.
  apply (proj2 (request_carries_history latin_lower) ["a"; "c"]
           [Resolve (answer "b"); Resolve (answer "d")] 1).
  vm_compute. reflexivity.
Defined.

Lemma remote_error_is_fatal_witness :
  exit_status
    (entry (main latin_lower (["a"] ++ "c" :: ["d"]))
       (boot ((Resolve <$> [answer "b"]) ++ Reject "503" :: [Resolve hollow]))).1
  = Some 1%Z
  ∧ last (chatMemory
            (entry (main latin_lower (["a"] ++ "c" :: ["d"]))
               (boot ((Resolve <$> [answer "b"]) ++ Reject "503" :: [Resolve hollow]))).2)
    = Some (user_turn "c").
Proof.
  destruct (proj1 (proj2 (proj2 (remote_error_is_fatal latin_lower)))
              ["a"] [answer "b"] "c" ["d"] "503" [Resolve hollow])
    as (Hexit & _ & Hlast & _).
  - reflexivity.
  - repeat constructor.
  - repeat constructor.
  - reflexivity.
  - split; [exact Hexit | exact Hlast].
Defined.

Lemma input_is_forwarded_witness :
  latin_lower "" ≠ "exit"
  ∧ [system_turn; user_turn ""] `prefix_of` chatMemory (loop latin_lower [""] (boot [])).2.
Proof.
  assert (latin_lower "" ≠ "exit") as Hx by (simpl; discriminate).
  split; [exact Hx|].
  exact (proj1 (proj2 (proj2 (input_is_forwarded latin_lower "" [] (boot []) Hx)))).
Defined.

Lemma missing_key_stops_startup_witness :
  ChatBot.program latin_lower ∅ {[ "EMAIL_USER" := "dev@example.com" ]} ["hello"]
    [Resolve (answer "hi")]
  = (Uncaught ConfigurationError, ChatBot.State [] [Resolve (answer "hi")] []).
Proof.
  refine (proj1 (missing_key_stops_startup latin_lower ∅
                   {[ "EMAIL_USER" := "dev@example.com" ]}
                   ["hello"] demo_host [Resolve (answer "hi")] [] _ _));
    reflexivity.
Defined.

Lemma errors_are_reported_witness :
  entry (loop latin_lower ["ping"; "exit"]) (boot [Resolve opaque])
  = (Exited 1,
     State
       [system_turn; user_turn "ping";
        stored_turn (VStr "assistant") (VObj {[ "toString" := VNum "1" ]})]
       []
       [Prompt "Enter your message : ";
        Request model [system_turn; user_turn "ping"];
        Stderr "Unexpected error in chat bot:"
          (TypeError "Cannot convert object to primitive value")]).
Proof.
  rewrite (proj1 (proj2 (proj2 (errors_are_reported latin_lower)))
             "ping" ["exit"] (boot [Resolve opaque]) opaque []).
  - reflexivity.
  - reflexivity.
  - reflexivity.
  - reflexivity.
  - reflexivity.
Defined.

(** C7, the case that fails.  The completion call of the basics demo is
    rejected: the error is printed, and the exit status is 0. *)
Lemma basics_failure_exits_zero :
  Basics.program demo_env ∅ demo_host [Reject "503"] []
  = (Exited 0,
     Basics.State [] []
       [Request model Basics.conversation;
        Stderr "Error in main function:" (RemoteError "503")])
  ∧ exit_status (Basics.program demo_env ∅ demo_host [Reject "503"] []).1 = Some 0%Z.
Proof. split; vm_compute; reflexivity. Qed.

Lemma startup_needs_nonempty_key_witness :
  (ChatBot.program latin_lower {[ "GROQ_API_KEY" := "" ]} demo_env ["exit"] []).1
  = Uncaught ConfigurationError.
Proof.
  apply (proj1 (startup_needs_nonempty_key latin_lower {[ "GROQ_API_KEY" := "" ]}
                  demo_env ["exit"] demo_host [] [])).
  right. reflexivity.
Defined.

Lemma chat_exits_normally_iff_witness :
  (entry (main latin_lower ["hello"; "EXIT"; "more"])
     (boot [Resolve hollow; Reject "503"])).1
  = Exited 0.
Proof.
  apply (proj2 (chat_exits_normally_iff latin_lower ["hello"; "EXIT"; "more"]
                  [Resolve hollow; Reject "503"])).
  exists ["hello"], "EXIT", ["more"], [hollow], [Reject "503"].
  repeat split; repeat constructor.
Defined.

Lemma loop_continues_witness :
  ∃ st',
    loop latin_lower (["a"; "b"] ++ ["EXIT"])
      (boot ((Resolve <$> [answer "x"; hollow]) ++ [Reject "503"]))
    = loop latin_lower ["EXIT"] st'
    ∧ remote st' = [Reject "503"]
    ∧ length (chatMemory st') = 5.
Proof.
  destruct (loop_continues latin_lower ["a"; "b"] [answer "x"; hollow]) with
    (rest := ["EXIT"]) (later := [Reject "503"])
    (st := boot ((Resolve <$> [answer "x"; hollow]) ++ [Reject "503"]))
    as (st' & Hgo & Hrem & _ & Hlen).
  - reflexivity.
  - repeat constructor.
  - repeat constructor.
  - reflexivity.
  - exists st'. repeat split; done.
Defined.

Lemma user_turns_follow_stdin_witness :
  ∃ line, ["a"; "b"] !! 1 = Some line ∧ ChatBot.is_exit latin_lower line = false
          ∧ user_turn "b" = user_turn line.
Proof.
  apply (user_turns_follow_stdin latin_lower ["a"; "b"] [Resolve hollow; Reject "503"] 1).
  vm_compute. reflexivity.
Defined.


(** ** Further properties of the basics demo *)

(** X9.  Once the basics demo has started, it never ends with a status
    other than 0: [main] catches whatever is thrown, so the top-level
    handler with its [process.exit(1)] never runs. *)
Theorem basics_exits_with_zero (h : Basics.host) (st : Basics.state) (code : Z) :
  exit_status (Basics.entry (Basics.main h) st).1 = Some code → code = 0%Z.
Proof.
  unfold Basics.entry. rewrite basics_main_run. cbn zeta.
  destruct (Basics.remote st) as [|[response|detail] later]; simpl; [done| |congruence].
  destruct (Basics.disk st) as [|[detail|] [|[detail'|] more]]; simpl; congruence.
Qed.

Lemma basics_exits_with_zero_witness :
  exit_status
    (Basics.entry (Basics.main demo_host) (Basics.boot [Resolve VNull] [None; None])).1
  = Some 0%Z.
Proof.
  destruct (exit_status
              (Basics.entry (Basics.main demo_host)
                 (Basics.boot [Resolve VNull] [None; None])).1) as [code|] eqn:Hcode.
  - f_equal.
    exact (basics_exits_with_zero demo_host (Basics.boot [Resolve VNull] [None; None])
             code Hcode).
  - vm_compute in Hcode. discriminate.
Defined.

(** X10.  Whatever the service and the file system do, a run of the demo
    makes one completion request, with the four messages of the source. *)
Theorem basics_sends_one_request (h : Basics.host) (st : Basics.state) :
  requests (Basics.out (Basics.main h st).2)
  = requests (Basics.out st) ++ [Basics.conversation].
Proof.
  rewrite basics_main_run. cbn zeta.
  destruct (Basics.remote st) as [|[response|detail] later]; simpl;
    [| |by rewrite !requests_app, app_nil_r].
  { by rewrite requests_app. }
  destruct (Basics.disk st) as [|[detail|] [|[detail'|] more]]; simpl;
    rewrite ?requests_app; simpl; rewrite ?app_nil_r; try done.
  destruct (Basics.first_content response); simpl; by rewrite app_nil_r.
Qed.

(** X11.  With a response and a file system that does as asked, the response
    is written, as received, before anything of it is read, to the file
    named [response_<now>.json] that [path.join] places in [data] under the
    working directory: its content is printed if
    [choices[0]?.message?.content] can be read, and otherwise the
    [TypeError] is reported, with the file already written. *)
Theorem basics_saves_before_reading
    (h : Basics.host) (st : Basics.state) (response : jsval)
    (later : list reply) (more : list (option string)) :
  Basics.remote st = Resolve response :: later →
  Basics.disk st = None :: None :: more →
  let dataDir := Basics.join h (Basics.cwd h) "data" in
  let filePath := Basics.join h dataDir ("response_" +:+ Basics.now h +:+ ".json") in
  Basics.main h st
  = (Ret tt,
     Basics.State later more
       (Basics.out st
        ++ [Request model Basics.conversation;
            Mkdir dataDir;
            WriteFile filePath response;
            Stdout [VStr ("Response saved to: " +:+ filePath)]]
        ++ match Basics.first_content response with
           | inr content =>
               [Stdout [VStr "AI Response:"; content];
                Stdout [VStr ("Full response saved to: " +:+ filePath)]]
           | inl e => [Stderr "Error in main function:" e]
           end)).
Proof.
  intros Hremote Hdisk. rewrite basics_main_run, Hremote, Hdisk. cbn zeta.
  by rewrite <- !app_assoc.
Qed.

Lemma basics_saves_before_reading_witness :
  Basics.main demo_host (Basics.boot [Resolve (VObj ∅)] [None; None])
  = (Ret tt,
     Basics.State [] []
       [Request model Basics.conversation;
        Mkdir "/home/dev/app/data";
        WriteFile "/home/dev/app/data/response_1700000000000.json" (VObj ∅);
        Stdout [VStr "Response saved to: /home/dev/app/data/response_1700000000000.json"];
        Stderr "Error in main function:"
          (TypeError "Cannot read properties of undefined (reading '0')")]).
Proof.
  rewrite (basics_saves_before_reading demo_host
             (Basics.boot [Resolve (VObj ∅)] [None; None]) (VObj ∅) [] []);
    reflexivity.
Defined.

(** X12.  When [fs.mkdir] or [fs.writeFile] fails, the failure is reported
    twice, by [saveResponseToFile] and by [main], nothing is printed on
    standard output, not even the response that was received, and no
    further file-system call is made. *)
Theorem basics_save_failure
    (h : Basics.host) (st : Basics.state) (response : jsval) (detail : string)
    (later : list reply) (more : list (option string)) :
  Basics.remote st = Resolve response :: later →
  Basics.disk st = Some detail :: more ∨ Basics.disk st = None :: Some detail :: more →
  (Basics.main h st).1 = Ret tt
  ∧ Basics.disk (Basics.main h st).2 = more
  ∧ ∃ calls,
      Basics.out (Basics.main h st).2
      = Basics.out st ++ calls
        ++ [Stderr "Error saving file:" (FsError detail);
            Stderr "Error in main function:" (FsError detail)]
      ∧ Forall (λ ev, ∀ args, ev ≠ Stdout args) calls.
Proof.
  intros Hremote Hdisk. rewrite basics_main_run, Hremote. cbn zeta.
  destruct Hdisk as [-> | ->]; simpl; repeat split.
  - eexists [_; _]. rewrite <- app_assoc. split; [reflexivity|].
    by repeat constructor.
  - eexists [_; _; _]. rewrite <- app_assoc. split; [reflexivity|].
    by repeat constructor.
Qed.

Lemma basics_save_failure_witness :
  Basics.disk
    (Basics.main demo_host (Basics.boot [Resolve (answer "42")] [Some "EACCES"; None])).2
  = [None].
Proof.
  refine (proj1 (proj2 (basics_save_failure demo_host
                          (Basics.boot [Resolve (answer "42")] [Some "EACCES"; None])
                          (answer "42") "EACCES" [] [None] _ _))).
  - reflexivity.
  - left. reflexivity.
Defined.

(** X13.  Reading [response.choices[0]?.message?.content] fails only when
    the response itself or its [choices] is [undefined] or [null]; an empty
    [choices], a choice without message, a message without content all give
    [undefined]. *)
Theorem first_content_fails_iff (response : jsval) :
  (∃ e, Basics.first_content response = inl e)
  ↔ nullish response = true
    ∨ ∃ choices, get response "choices" = inr choices ∧ nullish choices = true.
Proof.
  split.
  - unfold Basics.first_content.
    intros [e He]. destruct (nullish response) eqn:Hn; [by left|right].
    pose proof (get_defined response "choices" Hn) as Hc.
    exists (field response "choices"). split; [done|]. rewrite Hc in He. simpl in He.
    destruct (nullish (field response "choices")) eqn:Hn'; [done|exfalso].
    assert (∃ choice, at_index (field response "choices") 0 = inr choice)
      as [choice Hchoice].
    { destruct (field response "choices"); simpl in *; try done; eauto. }
    rewrite Hchoice in He. simpl in He. unfold get_opt in He.
    destruct (nullish choice) eqn:Hn''; simpl in He; [done|].
    rewrite (get_defined choice "message" Hn'') in He. simpl in He.
    destruct (nullish (field choice "message")) eqn:Hn3; [done|].
    rewrite (get_defined _ "content" Hn3) in He. done.
  - intros Hbad. destruct (first_content_error _ Hbad) as [text ->]. eauto.
Qed.

Lemma first_content_fails_iff_witness :
  ∃ e, Basics.first_content (VObj {[ "choices" := VNull ]}) = inl e.
Proof.
  apply (proj2 (first_content_fails_iff (VObj {[ "choices" := VNull ]}))).
  right. exists VNull. split; reflexivity.
Defined.

(** X14.  The demo writes no file but the one named [response_<now>.json]
    that [path.join] places in [data] under the working directory, and what
    it writes there is the response it received; the file name tells the
    time it was made from. *)
Theorem basics_writes_one_file :
  (∀ h remote disk path data,
     WriteFile path data ∈ Basics.out (Basics.main h (Basics.boot remote disk)).2 →
     path = Basics.join h (Basics.join h (Basics.cwd h) "data")
              ("response_" +:+ Basics.now h +:+ ".json")
     ∧ ∃ later, remote = Resolve data :: later)
  ∧ (∀ now1 now2 : string,
       "response_" +:+ now1 +:+ ".json" = "response_" +:+ now2 +:+ ".json" →
       now1 = now2).
Proof.
  split.
  - intros h remote disk path data.
    rewrite basics_main_run. cbn zeta. unfold Basics.boot, saved_at. simpl.
    destruct remote as [|[response|detail] later]; simpl.
    + intros Hin. repeat (apply elem_of_cons in Hin as [?|Hin]; [done|]).
      by apply elem_of_nil in Hin.
    + destruct disk as [|[detail|] [|[detail'|] more]]; simpl;
        try destruct (Basics.first_content response); simpl;
        intros Hin;
        repeat (apply elem_of_cons in Hin as [Heq|Hin]; [by simplify_eq; eauto|]);
        by apply elem_of_nil in Hin.
    + intros Hin. repeat (apply elem_of_cons in Hin as [?|Hin]; [done|]).
      by apply elem_of_nil in Hin.
  - intros now1 now2 Heq.
    apply (inj (String.append "response_")) in Heq.
    by apply append_inv_r in Heq.
Qed.

Lemma basics_writes_one_file_witness :
  "/home/dev/app/data/response_1700000000000.json"
  = Basics.join demo_host (Basics.join demo_host (Basics.cwd demo_host) "data")
      ("response_" +:+ Basics.now demo_host +:+ ".json")
  ∧ ∃ later, [Resolve VNull] = Resolve VNull :: later.
Proof.
  apply (proj1 basics_writes_one_file demo_host [Resolve VNull] [None; None]).
  vm_compute. repeat first [apply list_elem_of_here | apply list_elem_of_further].
Defined.

(** ** The walk of [copy-file.js] *)

Section Walk.
Import CopyFile.
Variable join : string → string → string.

Lemma node_induction (P : node → Prop) :
  (∀ content, P (File content)) →
  (∀ error, P (Unreadable error)) →
  (∀ entries, Forall (λ e, P e.2) entries → P (Dir entries)) →
  (∀ error, P (Denied error)) →
  P Other →
  ∀ d, P d.
Proof.
  intros HF HU HD HN HO. fix IH 1.
  intros [content|error|entries|error|];
    [apply HF | apply HU | | apply HN | apply HO].
  apply HD. induction entries as [|[name entry] rest IHrest]; constructor.
  - apply IH.
  - exact IHrest.
Qed.

Lemma processDirectory_Dir dir entries :
  processDirectory join dir (Dir entries) = forEach join dir entries.
Proof.
  induction entries as [|[name entry] rest IH]; [done|].
  simpl in *. unfold visit. by rewrite <- IH.
Qed.

Lemma listing_cons dir name entry rest :
  listing join dir (Dir ((name, entry) :: rest))
  = (if isDirectory entry
     then if skipped name then [] else listing join (join dir name) entry
     else if isFile entry then [(join dir name, entry)] else [])
    ++ listing join dir (Dir rest).
Proof. reflexivity. Qed.

Lemma listable_cons name entry rest :
  listable (Dir ((name, entry) :: rest))
  = (if isDirectory entry then skipped name || listable entry else true)
    && listable (Dir rest).
Proof. reflexivity. Qed.

Lemma dump_app files1 files2 :
  dump (files1 ++ files2) = dump files1 +:+ dump files2.
Proof.
  induction files1 as [|file files1 IH]; simpl; [done|].
  by rewrite IH, append_assoc.
Qed.

(** What one file adds. *)
Lemma visit_file dir name entry st :
  isFile entry = true →
  visit join dir name entry st
  = (Ret tt, State (outputFile st +:+ record (join dir name) entry) (console st)).
Proof.
  destruct entry; try discriminate; intros _; destruct st as [text printed];
    unfold visit, try_catch, bind, appendFileSync; simpl;
    by rewrite !append_assoc.
Qed.

(** The walk only adds to the output file, and what it adds does not depend
    on what the file holds; it ends by returning or with the error of a
    [readdirSync]. *)
Lemma walk_frame d : ∀ dir,
  ∃ result added,
    (result = Ret tt ∨ ∃ error, result = Throw (FsError error))
    ∧ ∀ st, processDirectory join dir d st
            = (result, State (outputFile st +:+ added) (console st)).
Proof.
  induction d as [content|error|entries IH|error|] using node_induction; intros dir.
  1,2,4,5: eexists _, ""; split; [right; eauto|];
    intros [text printed]; simpl; unfold throw; by rewrite append_nil_r.
  rewrite processDirectory_Dir.
  induction entries as [|[name entry] rest IHrest]; simpl.
  { exists (Ret tt), "". split; [by left|].
    intros [text printed]. unfold ret. simpl. by rewrite append_nil_r. }
  apply Forall_cons in IH as [Hentry Hrest]. simpl in Hentry.
  destruct (IHrest Hrest) as (result2 & added2 & Hkind2 & Hrun2).
  assert (∃ result1 added1,
            (result1 = Ret tt ∨ ∃ error, result1 = Throw (FsError error))
            ∧ ∀ st, visit join dir name entry st
                    = (result1, State (outputFile st +:+ added1) (console st)))
    as (result1 & added1 & Hkind1 & Hrun1).
  { destruct (isFile entry) eqn:Hfile.
    - exists (Ret tt), (record (join dir name) entry). split; [by left|].
      intros st. by apply visit_file.
    - destruct (isDirectory entry) eqn:Hdir.
      + destruct (skipped name) eqn:Hskip.
        * exists (Ret tt), "". split; [by left|].
          intros [text printed]. unfold visit. rewrite Hdir, Hskip. simpl.
          unfold ret. by rewrite append_nil_r.
        * destruct (Hentry (join dir name)) as (r & a & Hk & Hr).
          exists r, a. split; [done|]. intros st. unfold visit.
          rewrite Hdir, Hskip. simpl. apply Hr.
      + exists (Ret tt), "". split; [by left|].
        intros [text printed]. unfold visit. rewrite Hdir, Hfile. simpl.
        unfold ret. by rewrite append_nil_r. }
  destruct Hkind1 as [->|[error ->]].
  - exists result2, (added1 +:+ added2). split; [done|].
    intros st. unfold bind. rewrite Hrun1, Hrun2. simpl. by rewrite append_assoc.
  - exists (Throw (FsError error)), added1. split; [right; eauto|].
    intros st. unfold bind. by rewrite Hrun1.
Qed.

Lemma walk_listable d : ∀ dir st,
  listable d = true →
  processDirectory join dir d st
  = (Ret tt, State (outputFile st +:+ dump (listing join dir d)) (console st)).
Proof.
  induction d as [content|error|entries IH|error|] using node_induction;
    intros dir st; try discriminate.
  rewrite processDirectory_Dir. revert st.
  induction entries as [|[name entry] rest IHrest]; intros st Hok.
  { destruct st. simpl. unfold ret. by rewrite append_nil_r. }
  apply Forall_cons in IH as [Hentry Hrest]. simpl in Hentry.
  rewrite listable_cons in Hok. apply andb_prop in Hok as [Hhead Hok].
  rewrite listing_cons, dump_app. simpl. unfold bind.
  assert (visit join dir name entry st
          = (Ret tt,
             State (outputFile st
                    +:+ dump (if isDirectory entry
                              then if skipped name then []
                                   else listing join (join dir name) entry
                              else if isFile entry then [(join dir name, entry)] else []))
               (console st))) as ->.
  { destruct (isDirectory entry) eqn:Hdir.
    - unfold visit. rewrite Hdir. destruct (skipped name) eqn:Hskip; simpl.
      + destruct st. unfold ret. simpl. by rewrite append_nil_r.
      + by apply Hentry.
    - destruct (isFile entry) eqn:Hfile.
      + rewrite visit_file by done. simpl. by rewrite append_nil_r.
      + unfold visit. rewrite Hdir, Hfile. simpl.
        destruct st. unfold ret. simpl. by rewrite append_nil_r. }
  rewrite (IHrest Hrest _ Hok). simpl. by rewrite append_assoc.
Qed.

Lemma walk_denied d : ∀ dir st,
  listable d = false →
  ∃ error, (processDirectory join dir d st).1 = Throw (FsError error).
Proof.
  induction d as [content|error|entries IH|error|] using node_induction;
    intros dir st; try (by eexists).
  rewrite processDirectory_Dir. revert st.
  induction entries as [|[name entry] rest IHrest]; intros st Hbad; [done|].
  apply Forall_cons in IH as [Hentry Hrest]. simpl in Hentry.
  rewrite listable_cons in Hbad. simpl. unfold bind.
  destruct (isDirectory entry) eqn:Hdir.
  - unfold visit. rewrite Hdir. destruct (skipped name) eqn:Hskip; simpl in *.
    + by apply IHrest.
    + destruct (listable entry) eqn:Hentry_ok; simpl in Hbad.
      * rewrite walk_listable by done. by apply IHrest.
      * destruct (Hentry (join dir name) st eq_refl) as [error Herr].
        exists error.
        by destruct (processDirectory join (join dir name) entry st) as [[[]|e|p] st'];
          simplify_eq.
  - simpl in Hbad. destruct (isFile entry) eqn:Hfile.
    + rewrite visit_file by done. by apply IHrest.
    + unfold visit. rewrite Hdir, Hfile. simpl. by apply IHrest.
Qed.

Lemma prune_isDirectory entry : isDirectory (prune entry) = isDirectory entry.
Proof. by destruct entry. Qed.

Lemma prune_isFile entry : isFile (prune entry) = isFile entry.
Proof. by destruct entry. Qed.

Lemma forEach_app dir entries1 entries2 st :
  forEach join dir (entries1 ++ entries2) st
  = (forEach join dir entries1 >> forEach join dir entries2) st.
Proof.
  revert st. induction entries1 as [|[name entry] rest IH]; intros st; [done|].
  simpl. unfold bind in *.
  destruct (visit join dir name entry st) as [[[]|e|p] st']; [apply IH|done|done].
Qed.

Lemma walk_prune d : ∀ dir st,
  processDirectory join dir (prune d) st = processDirectory join dir d st.
Proof.
  induction d as [content|error|entries IH|error|] using node_induction;
    intros dir st; try done.
  revert st. induction entries as [|[name entry] rest IHrest]; intros st; [done|].
  apply Forall_cons in IH as [Hentry Hrest]. simpl in Hentry.
  specialize (IHrest Hrest).
  change (prune (Dir ((name, entry) :: rest)))
    with (Dir ((if isDirectory entry
                then if skipped name then [] else [(name, prune entry)]
                else if isFile entry then [(name, entry)] else [])
               ++ match prune (Dir rest) with Dir pruned => pruned | _ => [] end)).
  rewrite !processDirectory_Dir, forEach_app. simpl. unfold bind.
  assert (∀ st', forEach join dir
                   match prune (Dir rest) with Dir pruned => pruned | _ => [] end st'
                 = forEach join dir rest st') as Htail.
  { intros st'. rewrite <- !processDirectory_Dir. apply IHrest. }
  destruct (isDirectory entry) eqn:Hdir.
  - destruct (skipped name) eqn:Hskip.
    + unfold visit. rewrite Hdir, Hskip. simpl. apply Htail.
    + simpl. unfold bind, visit.
      rewrite prune_isDirectory, Hdir, Hskip. simpl. rewrite Hentry.
      destruct (processDirectory join (join dir name) entry st) as [[[]|e|p] st'];
        [apply Htail | done | done].
  - destruct (isFile entry) eqn:Hfile.
    + simpl. unfold bind.
      destruct (visit join dir name entry st) as [[[]|e|p] st'];
        [apply Htail | done | done].
    + unfold visit. rewrite Hdir, Hfile. simpl. apply Htail.
Qed.

Lemma survey_cons dir name entry rest :
  survey join dir (Dir ((name, entry) :: rest))
  = let here :=
      if isDirectory entry
      then if skipped name then ([], None) else survey join (join dir name) entry
      else if isFile entry then ([(join dir name, entry)], None)
      else ([], None) in
    match here.2 with
    | Some error => here
    | None => (here.1 ++ (survey join dir (Dir rest)).1, (survey join dir (Dir rest)).2)
    end.
Proof. reflexivity. Qed.

(** The walk writes the records of the files surveyed, and ends as the
    survey does. *)
Lemma walk_survey d : ∀ dir st,
  processDirectory join dir d st
  = (match (survey join dir d).2 with
     | None => Ret tt
     | Some error => Throw (FsError error)
     end,
     State (outputFile st +:+ dump (survey join dir d).1) (console st)).
Proof.
  induction d as [content|error|entries IH|error|] using node_induction;
    intros dir st.
  1,2,4,5: destruct st; simpl; unfold throw; by rewrite append_nil_r.
  rewrite processDirectory_Dir. revert st.
  induction entries as [|[name entry] rest IHrest]; intros st.
  { destruct st. simpl. unfold ret. by rewrite append_nil_r. }
  apply Forall_cons in IH as [Hentry Hrest]. simpl in Hentry.
  rewrite survey_cons. simpl forEach. unfold bind.
  set (here := if isDirectory entry
               then if skipped name then ([], None)
                    else survey join (join dir name) entry
               else if isFile entry then ([(join dir name, entry)], None)
               else ([], None)).
  assert (visit join dir name entry st
          = (match here.2 with
             | None => Ret tt
             | Some error => Throw (FsError error)
             end,
             State (outputFile st +:+ dump here.1) (console st))) as ->.
  { unfold here. destruct (isDirectory entry) eqn:Hdir.
    - unfold visit. rewrite Hdir. destruct (skipped name) eqn:Hskip; simpl.
      + destruct st. unfold ret. simpl. by rewrite append_nil_r.
      + apply Hentry.
    - destruct (isFile entry) eqn:Hfile.
      + rewrite visit_file by done. simpl. by rewrite append_nil_r.
      + unfold visit. rewrite Hdir, Hfile. simpl.
        destruct st. unfold ret. simpl. by rewrite append_nil_r. }
  cbn zeta. destruct (here.2) as [error|] eqn:Hend; [by rewrite Hend|].
  rewrite (IHrest Hrest). simpl. by rewrite dump_app, append_assoc.
Qed.

(** The files surveyed are the first of the listing, and all of it when no
    directory stopped the walk. *)
Lemma survey_listing d : ∀ dir,
  (survey join dir d).1 `prefix_of` listing join dir d
  ∧ ((survey join dir d).2 = None → (survey join dir d).1 = listing join dir d).
Proof.
  induction d as [content|error|entries IH|error|] using node_induction;
    intros dir; try (split; [apply prefix_nil|done]).
  induction entries as [|[name entry] rest IHrest]; [done|].
  apply Forall_cons in IH as [Hentry Hrest]. simpl in Hentry.
  destruct (IHrest Hrest) as [Hpre Hall].
  rewrite survey_cons, listing_cons.
  set (here := if isDirectory entry
               then if skipped name then ([], None)
                    else survey join (join dir name) entry
               else if isFile entry then ([(join dir name, entry)], None)
               else ([], None)).
  set (part := if isDirectory entry
               then if skipped name then []
                    else listing join (join dir name) entry
               else if isFile entry then [(join dir name, entry)] else []).
  assert (here.1 `prefix_of` part ∧ (here.2 = None → here.1 = part))
    as [Hpre1 Hall1].
  { unfold here, part.
    destruct (isDirectory entry); [destruct (skipped name)|destruct (isFile entry)];
      first [apply Hentry | done]. }
  cbn zeta. destruct (here.2) as [error|] eqn:Hend.
  - rewrite Hend. split; [by apply prefix_app_r|done].
  - rewrite (Hall1 eq_refl). cbn [fst snd]. split.
    + by apply prefix_app.
    + intros Hnone. by rewrite (Hall Hnone).
Qed.

End Walk.

(** ** Properties of the source dump *)

(** X15.  When every directory the walk enters can be listed, the script
    ends with status 0 and [output.txt] holds, whatever it held before, the
    records of the files of the tree, depth first in listing order, those
    under a directory named [_pycache_] or [env] left out; a file that
    cannot be read has its record too and stops nothing. *)
Theorem dump_of_listable_tree
    (join : string → string → string) (root : CopyFile.node) (st : CopyFile.state) :
  CopyFile.listable root = true →
  CopyFile.run join root st
  = (Exited 0,
     CopyFile.State
       (CopyFile.dump (CopyFile.listing join CopyFile.rootDir root))
       (CopyFile.console st
        ++ [Stdout [VStr "All file paths and contents have been stored in output.txt."]])).
Proof.
  intros Hok. unfold CopyFile.run, CopyFile.script, bind, CopyFile.writeFileSync.
  by rewrite (walk_listable join root _ _ Hok).
Qed.

Lemma dump_of_listable_tree_witness :
  (CopyFile.run posix_join sample_tree (CopyFile.State "stale" [])).1 = Exited 0.
Proof.
  rewrite (dump_of_listable_tree posix_join sample_tree (CopyFile.State "stale" [])).
  - reflexivity.
  - reflexivity.
Defined.

(** X16.  When a directory the walk enters cannot be listed, the script
    dies of the error of the first such directory it comes to:
    [output.txt] has been emptied and holds the records of the files the
    walk had come to before, which are the first of the listing, whatever
    it held before, and the closing message is not printed. *)
Theorem unlistable_directory_aborts
    (join : string → string → string) (root : CopyFile.node) :
  CopyFile.listable root = false →
  ∃ error,
    (CopyFile.survey join CopyFile.rootDir root).2 = Some error
    ∧ (CopyFile.survey join CopyFile.rootDir root).1
      `prefix_of` CopyFile.listing join CopyFile.rootDir root
    ∧ ∀ st,
        CopyFile.run join root st
        = (Uncaught (FsError error),
           CopyFile.State
             (CopyFile.dump (CopyFile.survey join CopyFile.rootDir root).1)
             (CopyFile.console st)).
Proof.
  intros Hbad.
  destruct (walk_denied join root CopyFile.rootDir (CopyFile.State "" []) Hbad)
    as [error Herror].
  rewrite walk_survey in Herror. simpl in Herror.
  destruct (CopyFile.survey join CopyFile.rootDir root).2 as [error'|] eqn:Hend;
    [|done].
  simplify_eq. exists error. split; [done|].
  split; [apply survey_listing|].
  intros st. unfold CopyFile.run, CopyFile.script, bind, CopyFile.writeFileSync.
  by rewrite walk_survey, Hend.
Qed.

Lemma unlistable_directory_aborts_witness :
  CopyFile.run posix_join
    (CopyFile.Dir [("a.txt", CopyFile.File "A"); ("src", CopyFile.Denied "EACCES");
                   ("b.txt", CopyFile.File "B")])
    (CopyFile.State "stale" [])
  = (Uncaught (FsError "EACCES"),
     CopyFile.State
       ("File Path: C:/Users/Pawan/Desktop/Langchain-Langgraph/src/a.txt"
        +:+ CopyFile.nl +:+ "Contents:" +:+ CopyFile.nl +:+ "A" +:+ CopyFile.nl
        +:+ "--------------------------------------------------"
        +:+ CopyFile.nl +:+ CopyFile.nl)
       []).
Proof.
  destruct (unlistable_directory_aborts posix_join
              (CopyFile.Dir [("a.txt", CopyFile.File "A");
                             ("src", CopyFile.Denied "EACCES");
                             ("b.txt", CopyFile.File "B")]) eq_refl)
    as (error & Herror & _ & Hrun).
  vm_compute in Herror. simplify_eq.
  rewrite Hrun. reflexivity.
Defined.

(** X17.  The walk does the same on a tree and on the tree without the
    directories named [_pycache_] or [env] and without the entries that are
    neither file nor directory, at any depth: what they hold, and whether
    they can be read at all, makes no difference. *)
Theorem walk_ignores_what_it_skips
    (join : string → string → string) (d : CopyFile.node) (dir : string)
    (st : CopyFile.state) :
  CopyFile.processDirectory join dir (CopyFile.prune d) st
  = CopyFile.processDirectory join dir d st.
Proof. apply walk_prune. Qed.

(** X18.  The walk only ever adds to [output.txt]: what was there stays in
    front, what is added does not depend on it, and nothing is printed
    meanwhile; the walk returns or ends with the error of a [readdirSync]. *)
Theorem walk_only_appends
    (join : string → string → string) (d : CopyFile.node) (dir : string) :
  ∃ result added,
    (result = Ret tt ∨ ∃ error, result = Throw (FsError error))
    ∧ ∀ st, CopyFile.processDirectory join dir d st
            = (result,
               CopyFile.State (CopyFile.outputFile st +:+ added) (CopyFile.console st)).
Proof. apply walk_frame. Qed.

Example dump_of_one_file :
  CopyFile.outputFile
    (CopyFile.run posix_join
       (CopyFile.Dir [("env", CopyFile.File "KEY=1"); ("env", CopyFile.Dir [("x", CopyFile.File "X")])])
       (CopyFile.State "stale" [])).2
  = "File Path: C:/Users/Pawan/Desktop/Langchain-Langgraph/src/env" +:+ CopyFile.nl
    +:+ "Contents:" +:+ CopyFile.nl
    +:+ "KEY=1" +:+ CopyFile.nl
    +:+ "--------------------------------------------------" +:+ CopyFile.nl +:+ CopyFile.nl.
Proof. reflexivity. Qed.
